(** * chroma_manager: the checksum-indexed file metadata tracker

    A shallow embedding of [main.py] (class [ChromaDBManager]) and the
    properties of its change-detection pass.

    Layout:
    - [SHA256]: the digest computed by [hashlib.sha256] (FIPS 180-4);
    - [Os]: the part of the filesystem the detector looks at
      ([os.path.join], [os.path.basename], [os.path.isfile],
      [os.path.getsize], [os.path.getmtime], [open]/[read]);
    - [Sqlite]: the [file_metadata] table, [INSERT OR REPLACE], and the
      connection with its implicit transaction;
    - the methods of [ChromaDBManager], in the order of the source;
    - the properties. *)

From Stdlib Require Import ZArith String Ascii List Lia Bool.
From stdpp Require Import gmap strings list pretty.

Local Open Scope Z_scope.

(** ** SHA-256 *)

Module SHA256.

(** 32-bit words are [Z] in [0, 2^32); every operation wraps. *)
Definition wrap (x : Z) : Z := x mod 2 ^ 32.
Definition add32 (x y : Z) : Z := wrap (x + y).
Definition rotr (n x : Z) : Z :=
  wrap (Z.lor (Z.shiftr x n) (Z.shiftl x (32 - n))).
Definition shr (n x : Z) : Z := Z.shiftr x n.
Definition not32 (x : Z) : Z := Z.lxor x (2 ^ 32 - 1).

Definition Ch (x y z : Z) : Z :=
  Z.lxor (Z.land x y) (Z.land (not32 x) z).
Definition Maj (x y z : Z) : Z :=
  Z.lxor (Z.lxor (Z.land x y) (Z.land x z)) (Z.land y z).
Definition Sigma0 (x : Z) : Z :=
  Z.lxor (Z.lxor (rotr 2 x) (rotr 13 x)) (rotr 22 x).
Definition Sigma1 (x : Z) : Z :=
  Z.lxor (Z.lxor (rotr 6 x) (rotr 11 x)) (rotr 25 x).
Definition sigma0 (x : Z) : Z :=
  Z.lxor (Z.lxor (rotr 7 x) (rotr 18 x)) (shr 3 x).
Definition sigma1 (x : Z) : Z :=
  Z.lxor (Z.lxor (rotr 17 x) (rotr 19 x)) (shr 10 x).

(** The round constants: the first 32 bits of the fractional parts of the
    cube roots of the first 64 primes (0x428a2f98 ... 0xc67178f2). *)
Definition K : list Z :=
  [ 1116352408; 1899447441; 3049323471; 3921009573;
    961987163; 1508970993; 2453635748; 2870763221;
    3624381080; 310598401; 607225278; 1426881987;
    1925078388; 2162078206; 2614888103; 3248222580;
    3835390401; 4022224774; 264347078; 604807628;
    770255983; 1249150122; 1555081692; 1996064986;
    2554220882; 2821834349; 2952996808; 3210313671;
    3336571891; 3584528711; 113926993; 338241895;
    666307205; 773529912; 1294757372; 1396182291;
    1695183700; 1986661051; 2177026350; 2456956037;
    2730485921; 2820302411; 3259730800; 3345764771;
    3516065817; 3600352804; 4094571909; 275423344;
    430227734; 506948616; 659060556; 883997877;
    958139571; 1322822218; 1537002063; 1747873779;
    1955562222; 2024104815; 2227730452; 2361852424;
    2428436474; 2756734187; 3204031479; 3329325298 ].

(** The initial hash value: the same of the square roots of the first 8
    primes (0x6a09e667 ... 0x5be0cd19). *)
Definition H0 : list Z :=
  [ 1779033703; 3144134277; 1013904242; 2773480762;
    1359893119; 2600822924; 528734635; 1541459225 ].

Definition byte_val (b : Byte.byte) : Z := Z.of_N (Byte.to_N b).

(** Big-endian encoding of [x] on [n] bytes, as byte values. *)
Fixpoint be_bytes (n : nat) (x : Z) : list Z :=
  match n with
  | O => []
  | S k => (Z.shiftr x (8 * Z.of_nat k)) mod 256 :: be_bytes k x
  end.

Definition be_word (bs : list Z) : Z :=
  fold_left (fun acc b => acc * 256 + b) bs 0.

(** Padding: the message, one [0x80], zeros up to 56 mod 64, and the
    bit length on 8 bytes. *)
Definition pad (msg : list Z) : list Z :=
  let len := Z.of_nat (length msg) in
  msg ++ [0x80] ++ replicate (Z.to_nat ((55 - len) mod 64)) 0
      ++ be_bytes 8 (8 * len).

Fixpoint words (n : nat) (bs : list Z) : list Z :=
  match n with
  | O => []
  | S k => be_word (take 4 bs) :: words k (drop 4 bs)
  end.

(** The message schedule, most recent word first. *)
Fixpoint schedule_rev (n : nat) (w : list Z) : list Z :=
  match n with
  | O => w
  | S k =>
      let w16 := nth 15 w 0 in
      let w15 := nth 14 w 0 in
      let w7 := nth 6 w 0 in
      let w2 := nth 1 w 0 in
      schedule_rev k
        (add32 (add32 (sigma1 w2) w7) (add32 (sigma0 w15) w16) :: w)
  end.

Definition schedule (block : list Z) : list Z :=
  rev (schedule_rev 48 (rev (words 16 block))).

Record regs := Regs { ra : Z; rb : Z; rc : Z; rd : Z;
                      re : Z; rf : Z; rg : Z; rh : Z }.

Definition round (r : regs) (kw : Z * Z) : regs :=
  let t1 := add32 (add32 (add32 (rh r) (Sigma1 (re r)))
                         (add32 (Ch (re r) (rf r) (rg r)) kw.1)) kw.2 in
  let t2 := add32 (Sigma0 (ra r)) (Maj (ra r) (rb r) (rc r)) in
  Regs (add32 t1 t2) (ra r) (rb r) (rc r) (add32 (rd r) t1) (re r) (rf r) (rg r).

Definition regs_of (h : list Z) : regs :=
  Regs (nth 0 h 0) (nth 1 h 0) (nth 2 h 0) (nth 3 h 0)
       (nth 4 h 0) (nth 5 h 0) (nth 6 h 0) (nth 7 h 0).

Definition list_of (r : regs) : list Z :=
  [ra r; rb r; rc r; rd r; re r; rf r; rg r; rh r].

Definition compress (h : list Z) (block : list Z) : list Z :=
  let r := fold_left round (zip K (schedule block)) (regs_of h) in
  zip_with add32 h (list_of r).

Fixpoint blocks (n : nat) (h : list Z) (bs : list Z) : list Z :=
  match n with
  | O => h
  | S k => blocks k (compress h (take 64 bs)) (drop 64 bs)
  end.

(** The 32-byte digest of a message. *)
Definition digest (msg : list Byte.byte) : list Z :=
  let p := pad (map byte_val msg) in
  let h := blocks (length p / 64)%nat H0 p in
  flat_map (be_bytes 4) h.

Definition hex_digit (n : Z) : ascii :=
  ascii_of_nat (Z.to_nat (if n <? 10 then 48 + n else 87 + n)).

Fixpoint hex (bs : list Z) : string :=
  match bs with
  | [] => EmptyString
  | b :: rest => String (hex_digit (b / 16)) (String (hex_digit (b mod 16)) (hex rest))
  end.

Definition hexdigest (msg : list Byte.byte) : string := hex (digest msg).

End SHA256.

(** ** Exceptions and the error monad *)

(** The exceptions that can leave the methods.  [FuelExhausted] is not a
    Python exception: it marks a read loop of the model that ran out of
    steps, and [calculate_checksum_total] shows that it never occurs. *)
Inductive exn :=
| FileNotFoundError
| PermissionError
| IsADirectoryError
| OperationalError      (* sqlite3: no such table, disk full, locked ... *)
| FuelExhausted.

Inductive outcome (A : Type) :=
| Returns (a : A)
| Raises (e : exn).
Arguments Returns {A} a.
Arguments Raises {A} e.

#[export] Instance outcome_ret : MRet outcome := fun A a => Returns a.
#[export] Instance outcome_bind : MBind outcome := fun A B f m =>
  match m with
  | Returns a => f a
  | Raises e => Raises e
  end.
#[export] Instance outcome_fmap : FMap outcome := fun A B f m =>
  match m with
  | Returns a => Returns (f a)
  | Raises e => Raises e
  end.

(** ** The filesystem *)

Module Os.

Inductive other_kind := Directory | Fifo | Socket | Device.

(** What a path names.  A symbolic link holds the path it points to
    (already made absolute or walk-relative, the way the keys are).
    [mtime] is the modification time in microseconds since the epoch. *)
Inductive inode :=
| Reg (data : list Byte.byte) (mtime : Z) (readable : bool)
| Other (k : other_kind) (size mtime : Z)
| Symlink (target : string).

(** The state of the machine during one pass: the files, what
    [os.walk] yields for a directory (its [(root, dirs, files)]
    triples, in order), and the local time zone as the map from a
    timestamp to the local wall clock reading. *)
Record state := State {
  fs : gmap string inode;
  walk : string → list (string * list string * list string);
  localtime : Z → Z
}.

Definition sep : ascii := "/"%char.

Definition starts_with_sep (p : string) : bool :=
  match p with
  | String c _ => Ascii.eqb c sep
  | EmptyString => false
  end.

Fixpoint ends_with_sep (p : string) : bool :=
  match p with
  | EmptyString => false
  | String c EmptyString => Ascii.eqb c sep
  | String _ rest => ends_with_sep rest
  end.

(** [posixpath.join] of two components. *)
Definition path_join (a b : string) : string :=
  if starts_with_sep b then b
  else if (String.eqb a "" || ends_with_sep a)%bool then (a +:+ b)%string
  else (a +:+ String sep b)%string.

(** [posixpath.basename]: what follows the last separator. *)
Fixpoint basename_from (acc p : string) : string :=
  match p with
  | EmptyString => acc
  | String c rest =>
      if Ascii.eqb c sep then basename_from EmptyString rest
      else basename_from (acc +:+ String c EmptyString)%string rest
  end.
Definition path_basename (p : string) : string := basename_from EmptyString p.

Record stat_result := Stat { st_isreg : bool; st_size : Z; st_mtime : Z }.

(** [os.stat], which follows symbolic links; the kernel gives up after
    40 of them. *)
Fixpoint stat_from (hops : nat) (s : state) (p : string) : outcome stat_result :=
  match fs s !! p with
  | None => Raises FileNotFoundError
  | Some (Reg data mtime _) => Returns (Stat true (Z.of_nat (length data)) mtime)
  | Some (Other _ size mtime) => Returns (Stat false size mtime)
  | Some (Symlink target) =>
      match hops with
      | O => Raises FileNotFoundError
      | S k => stat_from k s target
      end
  end.
Definition stat : state → string → outcome stat_result := stat_from 40.

(** [os.path.isfile]: false when [os.stat] fails. *)
Definition path_isfile (s : state) (p : string) : bool :=
  match stat s p with
  | Returns st => st_isreg st
  | Raises _ => false
  end.

Definition path_getsize (s : state) (p : string) : outcome Z :=
  st_size <$> stat s p.

Definition path_getmtime (s : state) (p : string) : outcome Z :=
  st_mtime <$> stat s p.

(** A file object opened for reading in binary mode. *)
Record file := File { f_data : list Byte.byte; f_pos : nat }.

Fixpoint open_from (hops : nat) (s : state) (p : string) : outcome file :=
  match fs s !! p with
  | None => Raises FileNotFoundError
  | Some (Reg data _ true) => Returns (File data 0)
  | Some (Reg _ _ false) => Raises PermissionError
  | Some (Other Directory _ _) => Raises IsADirectoryError
  | Some (Other _ _ _) => Raises PermissionError
  | Some (Symlink target) =>
      match hops with
      | O => Raises FileNotFoundError
      | S k => open_from k s target
      end
  end.
Definition open : state → string → outcome file := open_from 40.

(** [f.read(n)]: the next [n] bytes, fewer at the end of the file. *)
Definition read (n : nat) (f : file) : list Byte.byte * file :=
  let chunk := take n (drop (f_pos f) (f_data f)) in
  (chunk, File (f_data f) (f_pos f + length chunk)).

End Os.

(** ** datetime *)

Inductive tzinfo := utc.

(** A [datetime]: the wall clock reading (microseconds) and the zone,
    [None] for a naive one. *)
Record datetime := Datetime { dt_clock : Z; dt_tzinfo : option tzinfo }.

(** [datetime.fromtimestamp(t)] without a zone: naive, local time.  The
    call raises for a timestamp outside the years 1 to 9999; the model
    does not have that exception, and the properties of a pass are
    stated for a pass that returns or for either outcome. *)
Definition fromtimestamp (s : Os.state) (t : Z) : datetime :=
  Datetime (Os.localtime s t) None.

(** [dt.replace(tzinfo=tz)]: the clock reading is kept. *)
Definition replace_tzinfo (dt : datetime) (tz : tzinfo) : datetime :=
  Datetime (dt_clock dt) (Some tz).

(** ** hashlib *)

(** A [hashlib.sha256()] object.  Its state is the data fed to it so far,
    kept as the sequence of [update] arguments: the digest is that of
    their concatenation. *)
Record hasher := Hasher { updates : list (list Byte.byte) }.

Definition sha256_new : hasher := Hasher [].
Definition update (h : hasher) (chunk : list Byte.byte) : hasher :=
  Hasher (updates h ++ [chunk]).
Definition hexdigest (h : hasher) : string :=
  SHA256.hexdigest (concat (updates h)).

(** ** The SQLite store *)

Module Sqlite.

(** A row of [file_metadata].  [upload_date] is the engine's
    [CURRENT_TIMESTAMP] at the insert.  [last_modified] is written
    through [_adapt_datetime] (the ISO 8601 text of the datetime) and
    is kept here as the datetime it encodes. *)
Record row := Row {
  id : Z;
  filename : string;
  path : string;
  upload_date : Z;
  file_size : Z;
  checksum : string;
  last_modified : datetime
}.

(** The table and its [sqlite_sequence] entry: the largest [id] ever
    given out (AUTOINCREMENT). *)
Record table := Table { rows : list row; seq : Z }.

(** The database file: [None] until [file_metadata] is created. *)
Definition database := option table.

Definition empty_table : table := Table [] 0.

(** The values bound to one [INSERT]:
    [(filename, path, file_size, checksum, last_modified)]. *)
Definition params : Type := string * string * Z * string * datetime.

Definition max_rowid (rs : list row) : Z :=
  foldr (fun r m => Z.max (id r) m) 0 rs.

(** [INSERT OR REPLACE INTO file_metadata (filename, path, file_size,
    checksum, last_modified) VALUES (?, ?, ?, ?, ?)] at time [now]:
    a fresh [id] is drawn, the rows that conflict on the UNIQUE
    [checksum] are deleted, and the new row is added.  The ids are in
    [Z]: the statement that fails at the end of the 64-bit sequence is
    one of those that [execute_fails] stands for. *)
Definition insert_or_replace (now : Z) (t : table) (v : params) : table :=
  let '(fname, fpath, size, sum, modified) := v in
  let new_id := 1 + Z.max (seq t) (max_rowid (rows t)) in
  let kept := filter (fun r => checksum r ≠ sum) (rows t) in
  Table (kept ++ [Row new_id fname fpath now size sum modified]) new_id.

(** What the engine does that the program does not decide: whether the
    [k]-th statement of a call or its commit fails, and the clock.  A
    statement also fails when its values cannot be bound (a path that
    cannot be encoded, a size of 2^63 or more); the exception is then
    another one than [OperationalError], which the model does not
    tell apart. *)
Record engine := Engine {
  execute_fails : nat → bool;
  commit_fails : bool;
  current_timestamp : nat → Z
}.

(** A connection: the database as committed ([durable], what any later
    connection sees) and as seen inside the open transaction. *)
Record connection := Connection { durable : database; working : database }.

Definition connect (db : database) : connection := Connection db db.

(** Code that uses a connection and may raise; the connection it
    leaves behind is there in both cases. *)
Definition action (A : Type) : Type := connection → outcome A * connection.

Definition execute_insert (eng : engine) (k : nat) (v : params) : action unit :=
  fun conn =>
    if execute_fails eng k then (Raises OperationalError, conn)
    else match working conn with
         | None => (Raises OperationalError, conn)
         | Some t =>
             (Returns tt,
              Connection (durable conn)
                (Some (insert_or_replace (current_timestamp eng k) t v)))
         end.

Definition commit (eng : engine) : action unit :=
  fun conn =>
    if commit_fails eng then (Raises OperationalError, conn)
    else (Returns tt, Connection (working conn) (working conn)).

(** [conn.close()], and also what is left when the connection is
    dropped by an exception: the open transaction is rolled back and
    the file holds what was committed. *)
Definition close (conn : connection) : database := durable conn.

End Sqlite.

Import Sqlite.

(** ** ChromaDBManager *)

(** [_initialize_sqlite_db]: [CREATE TABLE IF NOT EXISTS file_metadata]. *)
Definition _initialize_sqlite_db (db : database) : database :=
  match db with
  | None => Some empty_table
  | Some t => Some t
  end.

(** [__init__]: the adapters are registered and the table is created;
    a manager works on an initialized database. *)
Definition __init__ (db : database) : database := _initialize_sqlite_db db.

(** The loop of [calculate_checksum]:
    [for chunk in iter(lambda: f.read(4096), b""): hasher.update(chunk)],
    with a bound on the number of reads. *)
Fixpoint read_loop (fuel : nat) (f : Os.file) (h : hasher) : option hasher :=
  match fuel with
  | O => None
  | S k =>
      let '(chunk, f') := Os.read 4096 f in
      match chunk with
      | [] => Some h
      | _ => read_loop k f' (update h chunk)
      end
  end.

Definition calculate_checksum (s : Os.state) (file_path : string) : outcome string :=
  f ← Os.open s file_path;
  match read_loop (S (length (Os.f_data f))) f sha256_new with
  | Some h => Returns (hexdigest h)
  | None => Raises FuelExhausted
  end.

(** [SELECT path, checksum FROM file_metadata], as a set of pairs. *)
Definition tracked_of (t : table) : gset (string * string) :=
  list_to_set ((fun r => (path r, checksum r)) <$> rows t).

Definition get_tracked_files (db : database) : outcome (gset (string * string)) :=
  match db with
  | None => Raises OperationalError
  | Some t => Returns (tracked_of t)
  end.

(** An element of [new_files]:
    [(file_path, file_size, checksum, last_modified)]. *)
Definition pending : Type := string * Z * string * datetime.

Definition p_path (e : pending) : string := e.1.1.1.
Definition p_size (e : pending) : Z := e.1.1.2.
Definition p_checksum (e : pending) : string := e.1.2.
Definition p_modified (e : pending) : datetime := e.2.

(** The body of [for file in files:], [new_files] being the list built
    so far. *)
Fixpoint scan_files (s : Os.state) (tracked : gset (string * string))
    (root : string) (files : list string) (new_files : list pending)
    : outcome (list pending) :=
  match files with
  | [] => Returns new_files
  | file :: rest =>
      let file_path := Os.path_join root file in
      if negb (Os.path_isfile s file_path) then
        scan_files s tracked root rest new_files
      else
        file_size ← Os.path_getsize s file_path;
        mtime ← Os.path_getmtime s file_path;
        let last_modified := fromtimestamp s mtime in
        checksum ← calculate_checksum s file_path;
        if decide ((file_path, checksum) ∈ tracked) then
          scan_files s tracked root rest new_files
        else
          scan_files s tracked root rest
            (new_files ++ [(file_path, file_size, checksum, last_modified)])
  end.

(** [for root, _, files in os.walk(directory):]. *)
Fixpoint scan_walk (s : Os.state) (tracked : gset (string * string))
    (triples : list (string * list string * list string))
    (new_files : list pending) : outcome (list pending) :=
  match triples with
  | [] => Returns new_files
  | (root, _, files) :: rest =>
      new_files' ← scan_files s tracked root files new_files;
      scan_walk s tracked rest new_files'
  end.

(** The values [_update_file_metadata] binds for one element. *)
Definition params_of (e : pending) : params :=
  let '(file_path, file_size, checksum, last_modified) := e in
  let last_modified :=
    match dt_tzinfo last_modified with
    | None => replace_tzinfo last_modified utc
    | Some _ => last_modified
    end in
  (Os.path_basename file_path, file_path, file_size, checksum, last_modified).

(** The loop of [_update_file_metadata]; [k] counts the statements. *)
Fixpoint execute_all (eng : engine) (k : nat) (new_files : list pending)
    : action unit :=
  fun conn =>
    match new_files with
    | [] => (Returns tt, conn)
    | e :: rest =>
        match execute_insert eng k (params_of e) conn with
        | (Returns _, conn') => execute_all eng (S k) rest conn'
        | (Raises x, conn') => (Raises x, conn')
        end
    end.

(** [_update_file_metadata]: connect, insert every element, commit,
    close.  The result is what the call returns or raises, and the
    database file afterwards. *)
Definition _update_file_metadata (eng : engine) (new_files : list pending)
    (db : database) : outcome unit * database :=
  let conn := connect db in
  match execute_all eng 0 new_files conn with
  | (Raises x, conn') => (Raises x, close conn')
  | (Returns _, conn') =>
      match commit eng conn' with
      | (Raises x, conn'') => (Raises x, close conn'')
      | (Returns _, conn'') => (Returns tt, close conn'')
      end
  end.

(** The first half of [check_for_new_files]: the snapshot and the walk,
    giving the list [new_files]. *)
Definition detect (s : Os.state) (db : database) (directory : string)
    : outcome (list pending) :=
  tracked_files ← get_tracked_files db;
  scan_walk s tracked_files (Os.walk s directory) [].

(** [check_for_new_files]: [_update_file_metadata] is called only when
    [new_files] is not empty. *)
Definition check_for_new_files (s : Os.state) (eng : engine) (db : database)
    (directory : string) : outcome unit * database :=
  match detect s db directory with
  | Raises x => (Raises x, db)
  | Returns [] => (Returns tt, db)
  | Returns new_files => _update_file_metadata eng new_files db
  end.

(** ** ChromaDBManager, with its log *)

(** Code that may raise and that emits messages through [logging.info]:
    it takes the messages emitted so far and gives them back with its
    own; those emitted before an exception stay emitted. *)
Definition logged (A : Type) : Type := list string → outcome A * list string.

Definition logging_info (msg : string) : logged unit :=
  fun log => (Returns tt, log ++ [msg]).

(** A call that emits nothing. *)
Definition quiet {A} (o : outcome A) : logged A := fun log => (o, log).

Definition and_then {A B} (m : logged A) (k : A → logged B) : logged B :=
  fun log =>
    match m log with
    | (Returns a, log') => k a log'
    | (Raises x, log') => (Raises x, log')
    end.

(** The body of [for file in files:] with its message (line 109). *)
Fixpoint scan_files_logged (s : Os.state) (tracked : gset (string * string))
    (root : string) (files : list string) (new_files : list pending)
    : logged (list pending) :=
  match files with
  | [] => quiet (Returns new_files)
  | file :: rest =>
      let file_path := Os.path_join root file in
      if negb (Os.path_isfile s file_path) then
        scan_files_logged s tracked root rest new_files
      else
        and_then (quiet (Os.path_getsize s file_path)) (fun file_size =>
        and_then (quiet (Os.path_getmtime s file_path)) (fun mtime =>
        let last_modified := fromtimestamp s mtime in
        and_then (quiet (calculate_checksum s file_path)) (fun checksum =>
        if decide ((file_path, checksum) ∈ tracked) then
          scan_files_logged s tracked root rest new_files
        else
          and_then
            (logging_info ("New or modified file detected: " +:+ file_path))
            (fun _ =>
               scan_files_logged s tracked root rest
                 (new_files ++ [(file_path, file_size, checksum, last_modified)])))))
  end.

Fixpoint scan_walk_logged (s : Os.state) (tracked : gset (string * string))
    (triples : list (string * list string * list string))
    (new_files : list pending) : logged (list pending) :=
  match triples with
  | [] => quiet (Returns new_files)
  | (root, _, files) :: rest =>
      and_then (scan_files_logged s tracked root files new_files)
        (fun new_files' => scan_walk_logged s tracked rest new_files')
  end.

(** [_update_file_metadata] with its message (line 138), which comes
    after the commit. *)
Definition _update_file_metadata_logged (eng : engine) (new_files : list pending)
    (db : database) (log : list string)
    : (outcome unit * database) * list string :=
  match _update_file_metadata eng new_files db with
  | (Returns u, db') =>
      ((Returns u, db'),
       log ++ ["Metadata updated for " +:+ pretty (length new_files)
               +:+ " new files."])
  | (Raises x, db') => ((Raises x, db'), log)
  end.

(** [check_for_new_files] with its messages (lines 89, 109, 115). *)
Definition check_for_new_files_logged (s : Os.state) (eng : engine)
    (db : database) (directory : string)
    : (outcome unit * database) * list string :=
  match get_tracked_files db with
  | Raises x => ((Raises x, db), [])
  | Returns tracked_files =>
      match
        and_then
          (logging_info ("Checking for new or modified files in " +:+ directory))
          (fun _ => scan_walk_logged s tracked_files (Os.walk s directory) [])
          []
      with
      | (Raises x, log) => ((Raises x, db), log)
      | (Returns [], log) =>
          ((Returns tt, db), log ++ ["No new or modified files found."])
      | (Returns new_files, log) =>
          _update_file_metadata_logged eng new_files db log
      end
  end.

(** * The vocabulary of the properties *)

(** ** Reading in blocks *)

(** A sequence of reads in blocks of [n] bytes: full blocks, then
    possibly one shorter, non-empty block. *)
Inductive in_blocks (n : nat) : list (list Byte.byte) → Prop :=
| in_blocks_nil : in_blocks n []
| in_blocks_last chunk :
    (0 < length chunk ≤ n)%nat → in_blocks n [chunk]
| in_blocks_cons chunk chunk' cs :
    length chunk = n → in_blocks n (chunk' :: cs) →
    in_blocks n (chunk :: chunk' :: cs).

(** ** Lowercase hexadecimal *)

Definition lower_hex_chars : list ascii :=
  list_ascii_of_string "0123456789abcdef".

Fixpoint is_lower_hex (s : string) : bool :=
  match s with
  | EmptyString => true
  | String c rest => bool_decide (c ∈ lower_hex_chars) && is_lower_hex rest
  end.

(** ** Rows, batches and the UNIQUE constraint *)

(** The rows stored for a checksum. *)
Definition rows_with (c : string) (t : table) : list row :=
  filter (fun r => checksum r = c) (rows t).

(** The UNIQUE constraint on [checksum]. *)
Definition unique_checksums (t : table) : Prop :=
  NoDup (checksum <$> rows t).

(** [last_modified] as [_update_file_metadata] binds it. *)
Definition made_aware (dt : datetime) : datetime :=
  match dt_tzinfo dt with
  | None => replace_tzinfo dt utc
  | Some _ => dt
  end.

(** The row written for an element of the batch. *)
Definition row_of (new_id now : Z) (e : pending) : row :=
  Row new_id (Os.path_basename (p_path e)) (p_path e) now (p_size e)
      (p_checksum e) (made_aware (p_modified e)).

Definition next_id (t : table) : Z := 1 + Z.max (seq t) (max_rowid (rows t)).

(** The table after the statements of a batch, numbered from [k]. *)
Fixpoint apply_batch (eng : engine) (k : nat) (t : table)
    (batch : list pending) : table :=
  match batch with
  | [] => t
  | e :: rest =>
      apply_batch eng (S k)
        (insert_or_replace (current_timestamp eng k) t (params_of e)) rest
  end.

(** The operations of the store, and a run of them. *)
Inductive store_op :=
| Initialize
| LoadTracked
| Upsert (eng : engine) (records : list pending).

Definition run_op (db : database) (o : store_op) : database :=
  match o with
  | Initialize => _initialize_sqlite_db db
  | LoadTracked => let _ := get_tracked_files db in db
  | Upsert eng records => (_update_file_metadata eng records db).2
  end.

Definition run_ops (db : database) (ops : list store_op) : database :=
  foldl run_op db ops.

Definition stored_unique (db : database) : Prop :=
  match db with
  | None => True
  | Some t => unique_checksums t
  end.

(** ** The walk, path by path *)

(** The paths the two loops build, in the order they are visited. *)
Definition walk_paths (triples : list (string * list string * list string))
    : list string :=
  triples ≫= (fun '(root, _, files) => Os.path_join root <$> files).

(** What one iteration of the loop body finds at a path, before the
    comparison with the snapshot: nothing for an entry that is not a
    file, the tuple for a file, or the exception that a call raises. *)
Definition visit (s : Os.state) (p : string) : outcome (option pending) :=
  if negb (Os.path_isfile s p) then Returns None
  else
    file_size ← Os.path_getsize s p;
    mtime ← Os.path_getmtime s p;
    checksum ← calculate_checksum s p;
    Returns (Some (p, file_size, checksum, fromtimestamp s mtime)).

Fixpoint visit_all (s : Os.state) (paths : list string)
    : outcome (list pending) :=
  match paths with
  | [] => Returns []
  | p :: rest =>
      o ← visit s p;
      found ← visit_all s rest;
      Returns (option_list o ++ found)
  end.

Definition untracked (tracked : gset (string * string)) (e : pending) : Prop :=
  (p_path e, p_checksum e) ∉ tracked.

(** A path of the walk, as the loops build it. *)
Definition walked (s : Os.state) (directory p : string) : Prop :=
  ∃ root dirs files file,
    (root, dirs, files) ∈ Os.walk s directory
    ∧ file ∈ files ∧ p = Os.path_join root file.

(** No two files of the walk at different paths have the same content. *)
Definition distinct_contents (s : Os.state) (directory : string) : Prop :=
  ∀ p1 p2 c,
    walked s directory p1 → walked s directory p2 →
    Os.path_isfile s p1 = true → Os.path_isfile s p2 = true →
    calculate_checksum s p1 = Returns c →
    calculate_checksum s p2 = Returns c →
    p1 = p2.

(** What the pass does with a path whose file is unchanged: the entry is
    not a file, or its (path, checksum) pair is tracked. *)
Definition settled (s : Os.state) (t : table) (p : string) : Prop :=
  Os.path_isfile s p = false
  ∨ ∃ c, calculate_checksum s p = Returns c ∧ (p, c) ∈ tracked_of t.

(** An untracked file of content [c] at path [p]. *)
Definition new_with (s : Os.state) (t : table) (c p : string) : Prop :=
  Os.path_isfile s p = true
  ∧ calculate_checksum s p = Returns c
  ∧ (p, c) ∉ tracked_of t.

(** ** Names *)

(** Whether a name holds a separator; a directory entry does not. *)
Fixpoint has_sep (p : string) : bool :=
  match p with
  | EmptyString => false
  | String c rest => Ascii.eqb c Os.sep || has_sep rest
  end.

(** ** The log *)



(** ** Columns *)

(** The columns of a row that the INSERT statement names. *)
Definition columns (r : row) : params :=
  (filename r, path r, file_size r, checksum r, last_modified r).

(** ** Row numbers *)

(** The ids of the table are distinct and none is above the sequence. *)
Definition well_numbered (t : table) : Prop :=
  NoDup (id <$> rows t) ∧ ∀ r, r ∈ rows t → id r ≤ seq t.

(** ** Sentences of the specification, as they are written *)

(** When the content of a tracked file changes, so that its checksum is
    not the old one, and the rest of the tree is as it was, a pass that
    returns has a record for the new checksum, has the records of the
    old checksum as they were, and has one row more. *)
Definition changed_content_grows_store : Prop :=
  ∀ s eng t directory before p after c_old c_new t',
    walk_paths (Os.walk s directory) = before ++ p :: after →
    (∀ q, q ∈ before ++ after → settled s t q) →
    (p, c_old) ∈ tracked_of t →
    c_new ≠ c_old →
    Os.path_isfile s p = true →
    calculate_checksum s p = Returns c_new →
    check_for_new_files s eng (Some t) directory = (Returns tt, Some t') →
    ∃ r_new, r_new ∈ rows t'
             ∧ checksum r_new = c_new
             ∧ (∀ r, r ∈ rows t → checksum r = c_old → r ∈ rows t')
             ∧ length (rows t') = S (length (rows t)).



(** A second pass over the same tree finds nothing and leaves the store
    as it is. *)
Definition second_pass_always_noop : Prop :=
  ∀ s eng eng' t directory db1,
    check_for_new_files s eng (Some t) directory = (Returns tt, db1) →
    detect s db1 directory = Returns []
    ∧ check_for_new_files s eng' db1 directory = (Returns tt, db1).


(** ** Concrete machines and stores *)

Module Examples.

Local Open Scope string_scope.

Definition content (text : string) : list Byte.byte :=
  list_byte_of_string text.

(** A machine whose directory [data] lists [names]; local time is UTC. *)
Definition machine (files : list (string * Os.inode)) (names : list string)
    : Os.state :=
  Os.State (list_to_map files)
    (fun d => if String.eqb d "data" then [("data", [], names)] else [])
    (fun t => t).

(** An engine on which nothing fails, started at time [start]. *)
Definition reliable_from (start : Z) : engine :=
  Engine (fun _ => false) false (fun k => start + Z.of_nat k).

Definition reliable : engine := reliable_from 100.

(** An engine whose second statement fails. *)
Definition failing_second : engine :=
  Engine (fun k => Nat.eqb k 1) false (fun k => 100 + Z.of_nat k).

Definition sha_hello : string :=
  "2cf24dba5fb0a30e26e83b2ac5b9e29e1b161e5c1fa7425e73043362938b9824".

(** [data/a.txt] and [data/b.txt], "hello" and "world". *)
Definition two_files : Os.state :=
  machine [("data/a.txt", Os.Reg (content "hello") 1000 true);
           ("data/b.txt", Os.Reg (content "world") 2000 true)]
          ["a.txt"; "b.txt"].

(** An empty file. *)
Definition empty_file : Os.state :=
  machine [("data/empty", Os.Reg [] 1000 true)] ["empty"].

(** The store after "hello" was recorded at [data/a.txt]. *)
Definition hello_at_a : table :=
  Table [Row 1 "a.txt" "data/a.txt" 50 5 sha_hello (Datetime 900 (Some utc))] 1.

(** The file was since renamed to [data/b.txt]. *)
Definition renamed : Os.state :=
  machine [("data/b.txt", Os.Reg (content "hello") 900 true)] ["b.txt"].

(** [data/a.txt] was rewritten, [data/b.txt] is as in [two_files]. *)
Definition a_rewritten : Os.state :=
  machine [("data/a.txt", Os.Reg (content "hello2") 3000 true);
           ("data/b.txt", Os.Reg (content "world") 2000 true)]
          ["a.txt"; "b.txt"].

(** The store after a pass over [two_files] from an empty table. *)
Definition after_first_run : table :=
  Table [Row 1 "a.txt" "data/a.txt" 100 5 sha_hello (Datetime 1000 (Some utc));
         Row 2 "b.txt" "data/b.txt" 101 5
             "486ea46224d1bb4fb680f34f7c9ad96a8f24ec88be73ea8e5a6c65260e9cb8a7"
             (Datetime 2000 (Some utc))] 2.

(** [data/a.txt] was since rewritten. *)
Definition rewritten : Os.state :=
  machine [("data/a.txt", Os.Reg (content "hello2") 1500 true)] ["a.txt"].

(** Three files, the second one not readable. *)
Definition one_unreadable : Os.state :=
  machine [("data/a.txt", Os.Reg (content "hello") 1000 true);
           ("data/b.txt", Os.Reg (content "world") 2000 false);
           ("data/c.txt", Os.Reg (content "again") 3000 true)]
          ["a.txt"; "b.txt"; "c.txt"].

(** Two files with the same content. *)
Definition twins : Os.state :=
  machine [("data/a.txt", Os.Reg (content "hello") 1000 true);
           ("data/b.txt", Os.Reg (content "hello") 2000 true)]
          ["a.txt"; "b.txt"].


(** [data/a.txt] was rewritten with the content of [data/b.txt], which
    is as in [two_files]. *)
Definition a_like_b : Os.state :=
  machine [("data/a.txt", Os.Reg (content "world") 3000 true);
           ("data/b.txt", Os.Reg (content "world") 2000 true)]
          ["a.txt"; "b.txt"].


(** [data/a.txt] was removed; [data/b.txt] is as in [two_files]. *)
Definition a_removed : Os.state :=
  machine [("data/b.txt", Os.Reg (content "world") 2000 true)] ["b.txt"].


End Examples.

(** ** Tactics *)

(** Unfolds the operations of the error monad, and nothing else. *)
Ltac outcome_simpl :=
  cbn [fmap outcome_fmap mbind outcome_bind mret outcome_ret
       option_list option_rect app].

(** * Properties *)

(** ** Test vectors for the digest *)

Example sha256_abc :
  SHA256.hexdigest (list_byte_of_string "abc")
  = "ba7816bf8f01cfea414140de5dae2223b00361a396177a9cb410ff61f20015ad"%string.
Proof. vm_compute. reflexivity. Qed.

Example sha256_two_blocks :
  SHA256.hexdigest (replicate 100 (Byte.x61))
  = "2816597888e4a0d3a36b82b83316ab32680eb8f00f8cd3b904d681246d285a0e"%string.
Proof. vm_compute. reflexivity. Qed.

(** ** calculate_checksum *)

Section Checksum.

Implicit Types (data chunk : list Byte.byte) (cs : list (list Byte.byte)).

Lemma in_blocks_push n chunk cs :
  (0 < length chunk ≤ n)%nat →
  (cs ≠ [] → length chunk = n) →
  in_blocks n cs → in_blocks n (chunk :: cs).
Proof.
  intros Hlen Hfull Hcs. destruct cs as [|c' cs'].
  - by constructor.
  - constructor; [by apply Hfull | done].
Qed.

Lemma take_drop_taken {A} (n : nat) (l : list A) :
  take n l ++ drop (length (take n l)) l = l.
Proof.
  destruct (decide (n ≤ length l)%nat) as [Hle|Hgt].
  - rewrite length_take, Nat.min_l by done. apply take_drop.
  - rewrite take_ge by lia. rewrite drop_all. apply app_nil_r.
Qed.

Lemma read_chunk_short data pos :
  (length (take 4096 (drop pos data)) < 4096)%nat →
  drop (pos + length (take 4096 (drop pos data))) data = [].
Proof.
  intros Hshort. rewrite length_take in Hshort.
  rewrite length_take. apply drop_ge. rewrite length_drop in *. lia.
Qed.

Lemma read_loop_blocks fuel data pos h :
  (length data - pos < fuel)%nat →
  ∃ cs, read_loop fuel (Os.File data pos) h = Some (Hasher (updates h ++ cs))
        ∧ concat cs = drop pos data
        ∧ in_blocks 4096 cs.
Proof.
  revert pos h. induction fuel as [|fuel IH]; intros pos h Hfuel; [lia|].
  cbn [read_loop Os.read Os.f_data Os.f_pos].
  destruct (take 4096 (drop pos data)) as [|b chunk] eqn:Hchunk.
  - exists []. rewrite app_nil_r. destruct h as [u]. split_and!; [done| |constructor].
    destruct (drop pos data); [done | discriminate].
  - set (c := b :: chunk) in *.
    assert (Hc : (0 < length c ≤ 4096)%nat).
    { split; [simpl; lia|]. rewrite <- Hchunk, length_take. lia. }
    assert (Hpos : (pos + length c ≤ length data)%nat).
    { rewrite <- Hchunk, length_take, length_drop.
      assert (0 < length (drop pos data))%nat; [|rewrite length_drop in *; lia].
      destruct (drop pos data); [discriminate | simpl; lia]. }
    destruct (IH (pos + length c)%nat (update h c)) as (cs & Hloop & Hcat & Hblk); [lia|].
    exists (c :: cs). split_and!.
    + rewrite Hloop. unfold update. simpl. by rewrite <- app_assoc.
    + change (c ++ concat cs = drop pos data).
      rewrite Hcat, <- drop_drop, <- Hchunk. apply take_drop_taken.
    + apply in_blocks_push; [done| |done].
      intros Hne.
      assert (Hcase : (length c = 4096 ∨ length c < 4096)%nat) by lia.
      destruct Hcase as [|Hlt]; [done|].
      exfalso. apply Hne. rewrite <- Hchunk in Hcat.
      rewrite read_chunk_short in Hcat.
      * destruct cs as [|c0 cs0]; [done|].
        inversion Hblk; subst; simpl in Hcat;
          destruct c0; simpl in *; try lia; discriminate.
      * rewrite Hchunk. lia.
Qed.

Lemma open_from_pos hops s p f :
  Os.open_from hops s p = Returns f → Os.f_pos f = 0%nat.
Proof.
  revert p. induction hops as [|hops IH]; intros p; simpl;
    destruct (Os.fs s !! p) as [[data mtime [|]|[] size mtime|target]|];
    try discriminate; try (intros [= <-]; done).
  apply IH.
Qed.

(** Opening a readable regular file gives its content, from the start. *)
Lemma open_regular s p data mtime :
  Os.fs s !! p = Some (Os.Reg data mtime true) →
  Os.open s p = Returns (Os.File data 0).
Proof. intros Hp. unfold Os.open. cbn. by rewrite Hp. Qed.

(** The read loop never runs out of steps: the call returns the digest
    of the whole content whenever the file can be opened. *)
Lemma calculate_checksum_total s p f :
  Os.open s p = Returns f →
  calculate_checksum s p = Returns (SHA256.hexdigest (Os.f_data f)).
Proof.
  intros Hopen. unfold calculate_checksum. rewrite Hopen.
  unfold mbind, outcome_bind.
  pose proof (open_from_pos _ _ _ _ Hopen) as Hpos.
  destruct f as [data pos]. cbn [Os.f_pos Os.f_data] in *. subst pos.
  destruct (read_loop_blocks (S (length data)) data 0 sha256_new)
    as (cs & Hloop & Hcat & _); [lia|].
  rewrite Hloop. unfold hexdigest. cbn [updates sha256_new app].
  by rewrite Hcat.
Qed.


End Checksum.

(** ** The hexadecimal digest *)

Section HexDigest.

Lemma be_bytes_length n x : length (SHA256.be_bytes n x) = n.
Proof. induction n as [|n IH]; simpl; [done | by rewrite IH]. Qed.

Lemma be_bytes_range n x :
  Forall (fun b => 0 ≤ b < 256) (SHA256.be_bytes n x).
Proof.
  induction n as [|n IH]; simpl; constructor; [|done].
  apply Z.mod_pos_bound. lia.
Qed.

Lemma compress_length h block :
  length h = 8%nat → length (SHA256.compress h block) = 8%nat.
Proof.
  intros Hh. unfold SHA256.compress.
  rewrite length_zip_with, Hh. reflexivity.
Qed.

Lemma blocks_length n h bs :
  length h = 8%nat → length (SHA256.blocks n h bs) = 8%nat.
Proof.
  revert h bs. induction n as [|n IH]; intros h bs Hh; simpl; [done|].
  apply IH. by apply compress_length.
Qed.

Lemma digest_length msg : length (SHA256.digest msg) = 32%nat.
Proof.
  unfold SHA256.digest.
  pose proof (blocks_length
    (length (SHA256.pad (map SHA256.byte_val msg)) / 64) SHA256.H0
    (SHA256.pad (map SHA256.byte_val msg)) eq_refl) as Hlen.
  destruct (SHA256.blocks _ _ _) as [|a [|b [|c [|d [|e [|f [|g [|h [|]]]]]]]]];
    try discriminate.
  reflexivity.
Qed.

Lemma digest_range msg :
  Forall (fun b => 0 ≤ b < 256) (SHA256.digest msg).
Proof.
  unfold SHA256.digest. generalize (SHA256.blocks
    (length (SHA256.pad (map SHA256.byte_val msg)) / 64) SHA256.H0
    (SHA256.pad (map SHA256.byte_val msg))).
  intros h. induction h as [|w h IH]; cbn [flat_map]; [constructor|].
  apply Forall_app. split; [apply be_bytes_range | done].
Qed.

Lemma hex_digit_lower n :
  0 ≤ n < 16 → SHA256.hex_digit n ∈ lower_hex_chars.
Proof.
  intros Hn.
  assert (Hcases : Exists (fun k => n = k)
            [0; 1; 2; 3; 4; 5; 6; 7; 8; 9; 10; 11; 12; 13; 14; 15]).
  { rewrite !Exists_cons. lia. }
  rewrite !Exists_cons, Exists_nil in Hcases.
  unfold lower_hex_chars.
  repeat (destruct Hcases as [->|Hcases];
          [apply (bool_decide_unpack _); vm_compute; exact I|]).
  done.
Qed.

Lemma hex_length bs : String.length (SHA256.hex bs) = (2 * length bs)%nat.
Proof. induction bs as [|b bs IH]; simpl; [done | rewrite IH; lia]. Qed.

Lemma hex_lower bs :
  Forall (fun b => 0 ≤ b < 256) bs → is_lower_hex (SHA256.hex bs) = true.
Proof.
  induction 1 as [|b bs Hb _ IH]; [done|].
  cbn [SHA256.hex is_lower_hex]. rewrite IH, !andb_true_r.
  apply andb_true_iff; split; apply bool_decide_eq_true, hex_digit_lower.
  - split; [apply Z.div_pos; lia | apply Z.div_lt_upper_bound; lia].
  - apply Z.mod_pos_bound. lia.
Qed.

Lemma hexdigest_shape msg :
  is_lower_hex (SHA256.hexdigest msg) = true
  ∧ String.length (SHA256.hexdigest msg) = 64%nat.
Proof.
  unfold SHA256.hexdigest. split.
  - apply hex_lower, digest_range.
  - by rewrite hex_length, digest_length.
Qed.

End HexDigest.

(** ** The store *)

Section Store.

Implicit Types (t : table) (r : row) (c : string).
Implicit Types (e : pending) (batch : list pending) (eng : engine).

Lemma insert_rows now t e :
  rows (insert_or_replace now t (params_of e))
  = filter (fun r => checksum r ≠ p_checksum e) (rows t)
      ++ [row_of (next_id t) now e].
Proof. by destruct e as [[[p sz] c] m]. Qed.

Lemma filter_conflict c (l : list row) :
  filter (fun r => checksum r = c) (filter (fun r => checksum r ≠ c) l) = [].
Proof.
  induction l as [|r l IH]; [done|].
  rewrite (filter_cons (fun r => checksum r ≠ c)). case_decide.
  - rewrite filter_cons. by case_decide.
  - done.
Qed.

Lemma filter_other c c' (l : list row) :
  c ≠ c' →
  filter (fun r => checksum r = c) (filter (fun r => checksum r ≠ c') l)
  = filter (fun r => checksum r = c) l.
Proof.
  intros Hne. induction l as [|r l IH]; [done|].
  rewrite (filter_cons (fun r => checksum r ≠ c')).
  rewrite (filter_cons (fun r => checksum r = c) r l).
  repeat case_decide; try congruence.
  - rewrite filter_cons. case_decide; [|done]. by rewrite IH.
  - rewrite filter_cons. case_decide; [done|]. by rewrite IH.
Qed.

Lemma filter_fresh c (l : list row) :
  (∀ r, r ∈ l → checksum r ≠ c) →
  filter (fun r => checksum r ≠ c) l = l.
Proof.
  intros Hfresh. induction l as [|r l IH]; [done|].
  rewrite filter_cons. case_decide.
  - rewrite IH; [done|]. intros r' Hr'. apply Hfresh. by right.
  - exfalso. by apply (Hfresh r); [left|].
Qed.

(** After an insert, the checksum inserted has exactly the new row. *)
Lemma rows_with_insert_same now t e :
  rows_with (p_checksum e) (insert_or_replace now t (params_of e))
  = [row_of (next_id t) now e].
Proof.
  unfold rows_with. rewrite insert_rows, filter_app, filter_conflict.
  rewrite filter_cons. by case_decide.
Qed.

(** The rows of every other checksum are left as they were. *)
Lemma rows_with_insert_other now t e c :
  c ≠ p_checksum e →
  rows_with c (insert_or_replace now t (params_of e)) = rows_with c t.
Proof.
  intros Hne. unfold rows_with.
  rewrite insert_rows, filter_app, filter_other by done.
  rewrite filter_cons. case_decide; [by subst|]. apply app_nil_r.
Qed.

Lemma insert_unique now t e :
  unique_checksums t →
  unique_checksums (insert_or_replace now t (params_of e)).
Proof.
  unfold unique_checksums. intros Hnd.
  rewrite insert_rows, fmap_app. apply NoDup_app. split_and!.
  - eapply sublist_NoDup; [exact Hnd | apply fmap_sublist, sublist_filter].
  - intros c Hin Hin'. apply list_elem_of_singleton in Hin'.
    apply list_elem_of_fmap in Hin as (r & -> & Hr).
    apply list_elem_of_filter in Hr as [Hr _]. by apply Hr.
  - apply NoDup_singleton.
Qed.

Lemma apply_batch_app eng k t batch batch' :
  apply_batch eng k t (batch ++ batch')
  = apply_batch eng (k + length batch) (apply_batch eng k t batch) batch'.
Proof.
  revert k t. induction batch as [|e batch IH]; intros k t; simpl.
  - by rewrite Nat.add_0_r.
  - rewrite IH. f_equal. lia.
Qed.

Lemma apply_batch_unique eng k t batch :
  unique_checksums t → unique_checksums (apply_batch eng k t batch).
Proof.
  revert k t. induction batch as [|e batch IH]; intros k t Ht; [done|].
  simpl. by apply IH, insert_unique.
Qed.

(** A checksum that the batch does not mention keeps its rows. *)
Lemma apply_batch_untouched eng k t batch c :
  (∀ e, e ∈ batch → p_checksum e ≠ c) →
  rows_with c (apply_batch eng k t batch) = rows_with c t.
Proof.
  revert k t. induction batch as [|e batch IH]; intros k t Hc; [done|].
  simpl. rewrite IH.
  - apply rows_with_insert_other. intros ->. by apply (Hc e); [left|].
  - intros e' He'. apply Hc. by right.
Qed.

(** A checksum that the batch mentions ends with one row: the one
    written for its last element with that checksum. *)
Lemma apply_batch_last eng k t before e after :
  (∀ e', e' ∈ after → p_checksum e' ≠ p_checksum e) →
  ∃ new_id now,
    rows_with (p_checksum e) (apply_batch eng k t (before ++ e :: after))
    = [row_of new_id now e].
Proof.
  intros Hafter. rewrite apply_batch_app. simpl.
  eexists _, _. rewrite apply_batch_untouched by done.
  apply rows_with_insert_same.
Qed.

End Store.

(** ** The transaction of _update_file_metadata *)

Section Transaction.

Implicit Types (t : table) (batch : list pending) (eng : engine).
Implicit Types (conn : connection) (db : database).

(** No statement of the loop touches what is committed. *)
Lemma execute_all_durable eng k batch conn :
  durable (execute_all eng k batch conn).2 = durable conn.
Proof.
  revert k conn. induction batch as [|e batch IH]; intros k conn; [done|].
  cbn [execute_all]. unfold execute_insert.
  destruct (execute_fails eng k); [done|].
  destruct (working conn) as [t|]; [|done].
  by rewrite IH.
Qed.

Lemma execute_all_returns eng k batch conn t u conn' :
  working conn = Some t →
  execute_all eng k batch conn = (Returns u, conn') →
  working conn' = Some (apply_batch eng k t batch).
Proof.
  revert k conn t. induction batch as [|e batch IH]; intros k conn t Hw.
  - intros Heq. injection Heq as _ <-. done.
  - cbn [execute_all apply_batch]. unfold execute_insert.
    destruct (execute_fails eng k); [done|]. rewrite Hw.
    apply IH. done.
Qed.

Lemma execute_all_no_faults eng k batch conn t :
  working conn = Some t →
  (∀ i, (i < length batch)%nat → execute_fails eng (k + i) = false) →
  (execute_all eng k batch conn).1 = Returns tt.
Proof.
  revert k conn t. induction batch as [|e batch IH]; intros k conn t Hw Hok.
  - done.
  - cbn [execute_all]. unfold execute_insert.
    replace (execute_fails eng k) with false
      by (rewrite <- (Hok 0%nat); [f_equal; lia | simpl; lia]).
    rewrite Hw. eapply IH; [done|].
    intros i Hi. rewrite <- (Hok (S i)); [f_equal; lia | simpl; lia].
Qed.

(** The two ways the call can end. *)
Lemma update_outcomes eng batch db :
  (∃ x, _update_file_metadata eng batch db = (Raises x, db))
  ∨ _update_file_metadata eng batch db
    = (Returns tt, (fun t => apply_batch eng 0 t batch) <$> db).
Proof.
  unfold _update_file_metadata.
  pose proof (execute_all_durable eng 0 batch (connect db)) as Hdur.
  destruct (execute_all eng 0 batch (connect db)) as [[[]|x] conn'] eqn:Hexec;
    cbn [snd connect durable] in Hdur.
  - unfold commit. destruct (commit_fails eng).
    + left. exists OperationalError. unfold close. by rewrite Hdur.
    + right. unfold close. cbn [durable]. f_equal.
      destruct db as [t|].
      * by apply (execute_all_returns _ _ _ _ t) in Hexec.
      * destruct batch as [|e batch].
        -- by injection Hexec as <-.
        -- cbn [execute_all] in Hexec. unfold execute_insert in Hexec.
           by destruct (execute_fails eng 0).
  - left. exists x. unfold close. by rewrite Hdur.
Qed.

Lemma update_returns eng batch t db' :
  _update_file_metadata eng batch (Some t) = (Returns tt, db') →
  db' = Some (apply_batch eng 0 t batch).
Proof.
  intros Hret. destruct (update_outcomes eng batch (Some t)) as [[x Hx]|Hok].
  - congruence.
  - rewrite Hok in Hret. by injection Hret as <-.
Qed.

Lemma update_no_faults eng batch t :
  (∀ i, (i < length batch)%nat → execute_fails eng i = false) →
  commit_fails eng = false →
  _update_file_metadata eng batch (Some t)
  = (Returns tt, Some (apply_batch eng 0 t batch)).
Proof.
  intros Hexec Hcommit.
  destruct (update_outcomes eng batch (Some t)) as [[x Hx]|Hok]; [|done].
  exfalso. revert Hx. unfold _update_file_metadata.
  pose proof (execute_all_no_faults eng 0 batch (connect (Some t)) t eq_refl Hexec) as H1.
  destruct (execute_all eng 0 batch (connect (Some t))) as [[[]|y] conn'];
    [|discriminate].
  unfold commit. rewrite Hcommit. discriminate.
Qed.

End Transaction.

(** ** The walk *)

Section Walk.

Implicit Types (s : Os.state) (p root file : string).
Implicit Types (tracked : gset (string * string)) (e : pending).

Lemma scan_files_visit s tracked root files acc :
  scan_files s tracked root files acc
  = (fun found => acc ++ filter (untracked tracked) found)
      <$> visit_all s (Os.path_join root <$> files).
Proof.
  revert acc. induction files as [|file files IH]; intros acc.
  - cbn. by rewrite app_nil_r.
  - cbn [scan_files fmap list_fmap visit_all]. unfold visit.
    destruct (Os.path_isfile s (Os.path_join root file)); cbn [negb].
    + destruct (Os.path_getsize s _) as [size|x]; [|done].
      destruct (Os.path_getmtime s _) as [mtime|x]; [|done].
      destruct (calculate_checksum s _) as [c|x]; [|done].
      outcome_simpl. case_decide as Htr; rewrite IH.
      * destruct (visit_all s _) as [found|x]; [|done]. outcome_simpl.
        rewrite filter_cons_False; [done|].
        unfold untracked, p_path, p_checksum. cbn [fst snd]. by intros Hn.
      * destruct (visit_all s _) as [found|x]; [|done]. outcome_simpl.
        rewrite filter_cons_True by done. by rewrite <- app_assoc.
    + rewrite IH. outcome_simpl.
      by destruct (visit_all s _) as [found|x].
Qed.

Lemma visit_all_app s l1 l2 :
  visit_all s (l1 ++ l2)
  = found1 ← visit_all s l1; found2 ← visit_all s l2; Returns (found1 ++ found2).
Proof.
  induction l1 as [|p l1 IH].
  - cbn [visit_all]. outcome_simpl. by destruct (visit_all s l2).
  - cbn [app visit_all]. rewrite IH.
    destruct (visit s p) as [o|x]; [|done]. outcome_simpl.
    destruct (visit_all s l1) as [f1|x]; [|done]. outcome_simpl.
    destruct (visit_all s l2) as [f2|x]; [|done]. outcome_simpl.
    by rewrite app_assoc.
Qed.

Lemma scan_walk_visit s tracked triples acc :
  scan_walk s tracked triples acc
  = (fun found => acc ++ filter (untracked tracked) found)
      <$> visit_all s (walk_paths triples).
Proof.
  revert acc. induction triples as [|[[root dirs] files] triples IH]; intros acc.
  - cbn. by rewrite app_nil_r.
  - cbn [scan_walk]. unfold walk_paths. cbn [mbind list_bind].
    fold (walk_paths triples). rewrite visit_all_app, scan_files_visit.
    destruct (visit_all s (Os.path_join root <$> files)) as [f1|x]; [|done].
    outcome_simpl. rewrite IH.
    destruct (visit_all s (walk_paths triples)) as [f2|x]; [|done].
    outcome_simpl. by rewrite filter_app, app_assoc.
Qed.

(** [detect] is the list of the files found, without the tracked ones. *)
Lemma detect_visit s t directory :
  detect s (Some t) directory
  = filter (untracked (tracked_of t))
      <$> visit_all s (walk_paths (Os.walk s directory)).
Proof.
  unfold detect. cbn [get_tracked_files]. outcome_simpl.
  by rewrite scan_walk_visit.
Qed.

Lemma visit_some s p e :
  visit s p = Returns (Some e) →
  Os.path_isfile s p = true
  ∧ p_path e = p
  ∧ Os.path_getsize s p = Returns (p_size e)
  ∧ calculate_checksum s p = Returns (p_checksum e)
  ∧ ∃ mtime, Os.path_getmtime s p = Returns mtime
             ∧ p_modified e = fromtimestamp s mtime.
Proof.
  unfold visit. destruct (Os.path_isfile s p); cbn [negb]; [|done].
  destruct (Os.path_getsize s p) as [size|x]; [|done].
  destruct (Os.path_getmtime s p) as [mtime|x]; [|done].
  destruct (calculate_checksum s p) as [c|x]; [|done].
  outcome_simpl. intros [= <-]. split_and!; try done. by exists mtime.
Qed.


(** Splitting the files found at a position of the walk. *)
Lemma visit_all_split s before p after found :
  visit_all s (before ++ p :: after) = Returns found →
  ∃ found1 o found2,
    visit_all s before = Returns found1
    ∧ visit s p = Returns o
    ∧ visit_all s after = Returns found2
    ∧ found = found1 ++ option_list o ++ found2.
Proof.
  rewrite visit_all_app. cbn [visit_all].
  destruct (visit_all s before) as [f1|x]; [|done].
  destruct (visit s p) as [o|x]; [|done].
  destruct (visit_all s after) as [f2|x]; [|done].
  outcome_simpl. intros [= <-]. by exists f1, o, f2.
Qed.

Lemma visit_all_elem s paths found e :
  visit_all s paths = Returns found → e ∈ found →
  p_path e ∈ paths ∧ visit s (p_path e) = Returns (Some e).
Proof.
  revert found. induction paths as [|p paths IH]; intros found.
  - intros [= <-] He. by apply not_elem_of_nil in He.
  - cbn [visit_all]. destruct (visit s p) as [o|x] eqn:Hv; [|done].
    destruct (visit_all s paths) as [f|x]; [|done]. outcome_simpl.
    intros [= <-] He. apply elem_of_app in He as [He|He].
    + destruct o as [e'|]; [|by apply not_elem_of_nil in He].
      apply list_elem_of_singleton in He as ->.
      destruct (visit_some _ _ _ Hv) as (_ & -> & _).
      split; [by left | done].
    + destruct (IH f eq_refl He) as [Hin Hvis]. split; [by right | done].
Qed.

Lemma visit_all_found s paths found p e :
  visit_all s paths = Returns found → p ∈ paths →
  visit s p = Returns (Some e) → e ∈ found.
Proof.
  intros Hall Hp Hv. apply list_elem_of_split in Hp as (before & after & ->).
  apply visit_all_split in Hall as (f1 & o & f2 & _ & Hv' & _ & ->).
  rewrite Hv in Hv'. injection Hv' as <-.
  apply elem_of_app. right. apply elem_of_app. left. by left.
Qed.


Lemma walked_paths s directory p :
  walked s directory p ↔ p ∈ walk_paths (Os.walk s directory).
Proof.
  unfold walked, walk_paths. rewrite list_elem_of_bind. split.
  - intros (root & dirs & files & file & Htr & Hf & ->).
    exists (root, dirs, files). split; [|done].
    apply list_elem_of_fmap. by exists file.
  - intros ([[root dirs] files] & Hp & Htr).
    apply list_elem_of_fmap in Hp as (file & -> & Hf).
    by exists root, dirs, files, file.
Qed.

Lemma tracked_of_elem t p c :
  (p, c) ∈ tracked_of t ↔ ∃ r, r ∈ rows t ∧ path r = p ∧ checksum r = c.
Proof.
  unfold tracked_of. rewrite elem_of_list_to_set, list_elem_of_fmap. split.
  - intros (r & [= -> ->] & Hr). by exists r.
  - intros (r & Hr & <- & <-). by exists r.
Qed.

Lemma rows_with_elem t c r :
  r ∈ rows_with c t ↔ r ∈ rows t ∧ checksum r = c.
Proof. unfold rows_with. rewrite list_elem_of_filter. tauto. Qed.

End Walk.

(** ** Lists and tables: auxiliary facts *)

Section Auxiliary.

Implicit Types (t : table) (r : row) (c : string).
Implicit Types (e : pending) (batch : list pending) (eng : engine).

(** The last element of a list that satisfies a decidable property. *)
Lemma last_such {A} (P : A → Prop) `{!∀ x, Decision (P x)} (l : list A) x :
  x ∈ l → P x →
  ∃ before y after, l = before ++ y :: after ∧ P y ∧ ∀ z, z ∈ after → ¬ P z.
Proof.
  revert x. induction l as [|a l IH]; intros x Hx HP.
  - by apply not_elem_of_nil in Hx.
  - destruct (decide (Exists P l)) as [Hex|Hnone].
    + apply Exists_exists in Hex as (x' & Hx' & HP').
      destruct (IH x' Hx' HP') as (before & y & after & -> & Hy & Hafter).
      by exists (a :: before), y, after.
    + assert (Hl : ∀ z, z ∈ l → ¬ P z).
      { intros z Hz HPz. apply Hnone, Exists_exists. eauto. }
      apply elem_of_cons in Hx as [->|Hx].
      * by exists [], a, l.
      * by destruct (Hl x Hx).
Qed.

Lemma filter_none {A} (P : A → Prop) `{!∀ x, Decision (P x)} (l : list A) :
  (∀ x, x ∈ l → ¬ P x) → filter P l = [].
Proof.
  intros Hnone. induction l as [|a l IH]; [done|].
  rewrite filter_cons_False by (apply Hnone; by left).
  apply IH. intros x Hx. apply Hnone. by right.
Qed.

Lemma unique_checksums_inj t r1 r2 :
  unique_checksums t → r1 ∈ rows t → r2 ∈ rows t →
  checksum r1 = checksum r2 → r1 = r2.
Proof.
  unfold unique_checksums. generalize (rows t) as l.
  induction l as [|r l IH]; intros Hnd H1 H2 Heq.
  - by apply not_elem_of_nil in H1.
  - rewrite fmap_cons in Hnd. apply NoDup_cons in Hnd as [Hnotin Hnd].
    apply elem_of_cons in H1 as [->|H1]; apply elem_of_cons in H2 as [->|H2].
    + done.
    + exfalso. apply Hnotin. rewrite Heq. by apply list_elem_of_fmap_2.
    + exfalso. apply Hnotin. rewrite <- Heq. by apply list_elem_of_fmap_2.
    + by apply IH.
Qed.

Lemma unique_rows_with t r :
  unique_checksums t → r ∈ rows t → rows_with (checksum r) t = [r].
Proof.
  intros Hu Hr. unfold rows_with.
  assert (Hall : ∀ r', r' ∈ rows t → checksum r' = checksum r → r' = r).
  { intros r' Hr' Heq. by apply (unique_checksums_inj t). }
  assert (Hnd : NoDup (rows t)) by (by eapply NoDup_fmap_1).
  revert Hr Hall Hnd. generalize (rows t) as l.
  induction l as [|a l IH]; intros Hr Hall Hnd.
  - by apply not_elem_of_nil in Hr.
  - apply NoDup_cons in Hnd as [Hnotin Hnd].
    rewrite filter_cons. case_decide as Ha.
    + assert (a = r) as -> by (apply Hall; [by left | done]).
      f_equal. apply filter_none. intros r' Hr' Heq.
      assert (r' = r) as -> by (apply Hall; [by right | done]). done.
    + apply elem_of_cons in Hr as [->|Hr]; [done|].
      apply IH; [done| |done]. intros r' Hr'. apply Hall. by right.
Qed.

Lemma filter_split_length c (l : list row) :
  (length (filter (fun r => checksum r ≠ c) l)
   + length (filter (fun r => checksum r = c) l) = length l)%nat.
Proof.
  induction l as [|r l IH]; [done|].
  rewrite !filter_cons. repeat case_decide; simpl; try congruence; lia.
Qed.

(** Every row after a batch was there before or was written for one of
    its elements. *)
Lemma apply_batch_rows eng k t batch r :
  r ∈ rows (apply_batch eng k t batch) →
  r ∈ rows t ∨ ∃ e new_id now, e ∈ batch ∧ r = row_of new_id now e.
Proof.
  revert k t. induction batch as [|e batch IH]; intros k t Hr; [by left|].
  cbn [apply_batch] in Hr. apply IH in Hr as [Hr|(e' & i & n & He' & ->)].
  - rewrite insert_rows in Hr. apply elem_of_app in Hr as [Hr|Hr].
    + left. by apply list_elem_of_filter in Hr as [_ Hr].
    + right. apply list_elem_of_singleton in Hr as ->.
      eexists e, _, _. split; [by left | done].
  - right. exists e', i, n. split; [by right | done].
Qed.

(** Every element of a batch has its checksum stored afterwards. *)
Lemma apply_batch_stored eng k t batch e :
  e ∈ batch →
  ∃ e' new_id now,
    e' ∈ batch ∧ p_checksum e' = p_checksum e
    ∧ rows_with (p_checksum e) (apply_batch eng k t batch)
      = [row_of new_id now e'].
Proof.
  intros He.
  destruct (last_such (fun e' => p_checksum e' = p_checksum e) batch e He eq_refl)
    as (before & e' & after & -> & Heq & Hafter).
  destruct (apply_batch_last eng k t before e' after) as (i & n & Hrows).
  { intros z Hz Hc. apply (Hafter z Hz). congruence. }
  exists e', i, n. split_and!; [|done|by rewrite <- Heq].
  apply elem_of_app. right. by left.
Qed.

Lemma isfile_stat s p :
  Os.path_isfile s p = true →
  ∃ st, Os.stat s p = Returns st ∧ Os.st_isreg st = true.
Proof.
  unfold Os.path_isfile. destruct (Os.stat s p) as [st|x]; [|done].
  intros Hreg. by exists st.
Qed.

(** For a file, what [visit] does is decided by [calculate_checksum]. *)
Lemma visit_file s p :
  Os.path_isfile s p = true →
  (∀ x, calculate_checksum s p = Raises x → visit s p = Raises x)
  ∧ (∀ c, calculate_checksum s p = Returns c →
       ∃ e, visit s p = Returns (Some e) ∧ p_path e = p ∧ p_checksum e = c).
Proof.
  intros Hf. destruct (isfile_stat s p Hf) as (st & Hst & _).
  unfold visit, Os.path_getsize, Os.path_getmtime. rewrite Hf, Hst.
  cbn [negb]. outcome_simpl. split.
  - by intros x ->.
  - intros c ->. outcome_simpl. by eexists.
Qed.

End Auxiliary.

(** ** The three runs of the end-to-end scenario *)

Example first_run :
  check_for_new_files Examples.two_files Examples.reliable
    (__init__ None) "data"
  = (Returns tt, Some Examples.after_first_run).
Proof. vm_compute. reflexivity. Qed.

Example second_run :
  detect Examples.two_files (Some Examples.after_first_run) "data" = Returns []
  ∧ check_for_new_files Examples.two_files (Examples.reliable_from 200)
      (Some Examples.after_first_run) "data"
    = (Returns tt, Some Examples.after_first_run).
Proof. split; vm_compute; reflexivity. Qed.

Example third_run :
  check_for_new_files Examples.a_rewritten (Examples.reliable_from 300)
    (Some Examples.after_first_run) "data"
  = (Returns tt,
     Some (Table
       (rows Examples.after_first_run
        ++ [Row 3 "a.txt" "data/a.txt" 300 6
                "87298cc2f31fba73181ea2a9e6ef10dce21ed95e98bdac9c4e1504ea16f486e4"
                (Datetime 3000 (Some utc))]) 3)).
Proof. vm_compute. reflexivity. Qed.

(** ** The claims *)

(** C5. [calculate_checksum] returns the lowercase hexadecimal SHA-256
    digest of the whole content of the file, which it reads in blocks of
    4096 bytes; the result depends on the content only, and for an empty
    file it is the digest of the empty input. *)
Theorem calculate_checksum_sha256 s p f :
  Os.open s p = Returns f →
  (∃ h, read_loop (S (length (Os.f_data f))) f sha256_new = Some h
        ∧ in_blocks 4096 (updates h)
        ∧ concat (updates h) = Os.f_data f)
  ∧ calculate_checksum s p = Returns (SHA256.hexdigest (Os.f_data f))
  ∧ is_lower_hex (SHA256.hexdigest (Os.f_data f)) = true
  ∧ String.length (SHA256.hexdigest (Os.f_data f)) = 64%nat
  ∧ (∀ s' p' f', Os.open s' p' = Returns f' → Os.f_data f' = Os.f_data f →
       calculate_checksum s' p' = calculate_checksum s p)
  ∧ (Os.f_data f = [] →
       calculate_checksum s p = Returns
         "e3b0c44298fc1c149afbf4c8996fb92427ae41e4649b934ca495991b7852b855"%string).
Proof.
  intros Hopen. pose proof (calculate_checksum_total s p f Hopen) as Hsum.
  split_and!.
  - pose proof (open_from_pos _ _ _ _ Hopen) as Hpos.
    destruct f as [data pos]. cbn [Os.f_pos Os.f_data] in *. subst pos.
    destruct (read_loop_blocks (S (length data)) data 0 sha256_new)
      as (cs & Hloop & Hcat & Hblk); [lia|].
    eexists. split; [exact Hloop|]. by split.
  - done.
  - apply hexdigest_shape.
  - apply hexdigest_shape.
  - intros s' p' f' Hopen' Hdata.
    rewrite Hsum, (calculate_checksum_total s' p' f' Hopen'). by rewrite Hdata.
  - intros Hempty. rewrite Hsum, Hempty. by vm_compute.
Qed.

Lemma calculate_checksum_sha256_witness :
  Os.open Examples.empty_file "data/empty" = Returns (Os.File [] 0)
  ∧ calculate_checksum Examples.empty_file "data/empty"
    = Returns "e3b0c44298fc1c149afbf4c8996fb92427ae41e4649b934ca495991b7852b855"%string.
Proof.
  assert (Hopen : Os.open Examples.empty_file "data/empty" = Returns (Os.File [] 0))
    by (vm_compute; reflexivity).
  split; [exact Hopen|].
  apply (calculate_checksum_sha256 _ _ _ Hopen). reflexivity.
Defined.

(** C6. The batched persistence call is atomic: it either returns with
    every element of the batch committed (each checksum of the batch is
    stored, with the row of one of its elements), or it raises with the
    database left as it was, and [check_for_new_files] then raises the
    same exception, also with the database as it was. *)
Theorem update_is_atomic eng batch db :
  (_update_file_metadata eng batch db
     = (Returns tt, (fun t => apply_batch eng 0 t batch) <$> db)
   ∧ ∀ t e, db = Some t → e ∈ batch →
       ∃ e' new_id now,
         e' ∈ batch ∧ p_checksum e' = p_checksum e
         ∧ rows_with (p_checksum e) (apply_batch eng 0 t batch)
           = [row_of new_id now e'])
  ∨ (∃ x, _update_file_metadata eng batch db = (Raises x, db)
          ∧ ∀ s directory,
              detect s db directory = Returns batch → batch ≠ [] →
              check_for_new_files s eng db directory = (Raises x, db)).
Proof.
  destruct (update_outcomes eng batch db) as [[x Hx]|Hok].
  - right. exists x. split; [done|].
    intros s directory Hdet Hne. unfold check_for_new_files. rewrite Hdet.
    by destruct batch.
  - left. split; [done|]. intros t e _ He. by apply apply_batch_stored.
Qed.

(** A batch whose second statement fails leaves nothing behind, not even
    its first element. *)
Example update_fails_partway :
  _update_file_metadata Examples.failing_second
    [("data/a.txt"%string, 5, "aa"%string, Datetime 1000 None);
     ("data/b.txt"%string, 5, "bb"%string, Datetime 2000 None)]
    (Some Examples.hello_at_a)
  = (Raises OperationalError, Some Examples.hello_at_a).
Proof. reflexivity. Qed.

(** C9. A naive [last_modified] is given the zone UTC, with its clock
    reading unchanged, before it is bound to the insert, so every value
    of [last_modified] that a pass writes is timezone-aware: a row of
    the store after the pass was there before or carries the local
    reading of a file's modification time, with zone UTC. *)
Theorem last_modified_is_aware s eng t directory t' :
  check_for_new_files s eng (Some t) directory = (Returns tt, Some t') →
  (∀ e : pending,
     let written := (params_of e).2 in
     dt_tzinfo written ≠ None
     ∧ dt_clock written = dt_clock (p_modified e)
     ∧ (dt_tzinfo (p_modified e) = None → dt_tzinfo written = Some utc))
  ∧ ∀ r, r ∈ rows t' →
      r ∈ rows t
      ∨ ∃ mtime, Os.path_getmtime s (path r) = Returns mtime
                 ∧ last_modified r = Datetime (Os.localtime s mtime) (Some utc).
Proof.
  intros Hpass. split.
  - intros [[[p sz] c] [clock [tz|]]]; cbn; by split_and!.
  - intros r Hr. unfold check_for_new_files in Hpass.
    rewrite detect_visit in Hpass.
    destruct (visit_all s _) as [found|x] eqn:Hall; [|done].
    revert Hpass. outcome_simpl.
    destruct (filter _ found) as [|e0 batch] eqn:Hbatch.
    { intros [= <-]. by left. }
    intros Hupd. apply update_returns in Hupd. injection Hupd as ->.
    apply (apply_batch_rows eng 0 t (e0 :: batch)) in Hr
      as [Hr|(e & i & n & He & ->)]; [by left|].
    right. rewrite <- Hbatch in He. apply list_elem_of_filter in He as [_ He].
    destruct (visit_all_elem _ _ _ _ Hall He) as [_ Hv].
    destruct (visit_some _ _ _ Hv) as (_ & _ & _ & _ & mtime & Hm & Hmod).
    exists mtime. cbn [path row_of last_modified]. split; [done|].
    by rewrite Hmod.
Qed.

Lemma last_modified_is_aware_witness :
  check_for_new_files Examples.two_files Examples.reliable
    (Some empty_table) "data"
  = (Returns tt,
     Some (Table
       [Row 1 "a.txt" "data/a.txt" 100 5 Examples.sha_hello
            (Datetime 1000 (Some utc));
        Row 2 "b.txt" "data/b.txt" 101 5
            "486ea46224d1bb4fb680f34f7c9ad96a8f24ec88be73ea8e5a6c65260e9cb8a7"
            (Datetime 2000 (Some utc))] 2))
  ∧ ∀ r, r ∈ [Row 1 "a.txt" "data/a.txt" 100 5 Examples.sha_hello
                  (Datetime 1000 (Some utc));
              Row 2 "b.txt" "data/b.txt" 101 5
                  "486ea46224d1bb4fb680f34f7c9ad96a8f24ec88be73ea8e5a6c65260e9cb8a7"
                  (Datetime 2000 (Some utc))] →
      r ∈ rows empty_table
      ∨ ∃ mtime, Os.path_getmtime Examples.two_files (path r) = Returns mtime
                 ∧ last_modified r
                   = Datetime (Os.localtime Examples.two_files mtime) (Some utc).
Proof.
  assert (Hpass : check_for_new_files Examples.two_files Examples.reliable
                    (Some empty_table) "data"
                  = (Returns tt,
     Some (Table
       [Row 1 "a.txt" "data/a.txt" 100 5 Examples.sha_hello
            (Datetime 1000 (Some utc));
        Row 2 "b.txt" "data/b.txt" 101 5
            "486ea46224d1bb4fb680f34f7c9ad96a8f24ec88be73ea8e5a6c65260e9cb8a7"
            (Datetime 2000 (Some utc))] 2)))
    by (vm_compute; reflexivity).
  split; [exact Hpass|].
  apply (last_modified_is_aware _ _ _ _ _ Hpass).
Defined.

Lemma run_op_unique db o : stored_unique db → stored_unique (run_op db o).
Proof.
  intros Hu. destruct o as [| |eng records]; cbn [run_op].
  - destruct db; [done|]. cbn. unfold unique_checksums. cbn. constructor.
  - done.
  - destruct (update_outcomes eng records db) as [[x ->]| ->]; [done|].
    destruct db as [t|]; [|done]. by apply apply_batch_unique.
Qed.

(** C4. After any sequence of initialize, load and upsert operations the
    store has no two rows with the same checksum; upserting a record
    whose checksum is already stored leaves the number of rows as it
    was, with one row for that checksum, which carries the values of the
    new record, and the rows of the other checksums as they were. *)
Theorem checksum_stays_unique :
  (∀ ops db, stored_unique db → stored_unique (run_ops db ops))
  ∧ (∀ eng t e r t',
       unique_checksums t → r ∈ rows t → checksum r = p_checksum e →
       _update_file_metadata eng [e] (Some t) = (Returns tt, Some t') →
       length (rows t') = length (rows t)
       ∧ rows_with (checksum r) t'
         = [Row (next_id t) (Os.path_basename (p_path e)) (p_path e)
                (current_timestamp eng 0) (p_size e) (checksum r)
                (made_aware (p_modified e))]
       ∧ ∀ r2, r2 ∈ rows t → checksum r2 ≠ checksum r → r2 ∈ rows t').
Proof.
  split.
  - intros ops. induction ops as [|o ops IH]; intros db Hu; [done|].
    cbn. apply IH. by apply run_op_unique.
  - intros eng t e r t' Hu Hr Hsum Hupd.
    apply update_returns in Hupd. injection Hupd as ->.
    cbn [apply_batch]. split_and!.
    + rewrite insert_rows, length_app. cbn [length].
      pose proof (filter_split_length (p_checksum e) (rows t)) as Hlen.
      pose proof (unique_rows_with t r Hu Hr) as Hone.
      unfold rows_with in Hone. rewrite Hsum in Hone. rewrite Hone in Hlen.
      cbn [length] in Hlen. lia.
    + rewrite Hsum. apply rows_with_insert_same.
    + intros r2 Hr2 Hne. rewrite insert_rows. apply elem_of_app. left.
      apply list_elem_of_filter. split; [congruence | done].
Qed.

Lemma checksum_stays_unique_witness :
  stored_unique
    (run_ops None
       [Initialize; LoadTracked;
        Upsert Examples.reliable
          [("data/a.txt"%string, 5, Examples.sha_hello, Datetime 1000 None);
           ("data/b.txt"%string, 5, Examples.sha_hello, Datetime 2000 None)];
        Initialize])
  ∧ length (rows (Table
       [Row 2 "b.txt" "data/b.txt" 100 5 Examples.sha_hello
            (Datetime 900 (Some utc))] 2))
    = length (rows Examples.hello_at_a).
Proof.
  destruct checksum_stays_unique as [Hruns Hupsert]. split.
  - apply Hruns. exact I.
  - apply (Hupsert Examples.reliable Examples.hello_at_a
             ("data/b.txt"%string, 5, Examples.sha_hello, Datetime 900 None)
             (Row 1 "a.txt" "data/a.txt" 50 5 Examples.sha_hello
                  (Datetime 900 (Some utc)))).
    + unfold unique_checksums. vm_compute. apply NoDup_singleton.
    + vm_compute. left.
    + reflexivity.
    + reflexivity.
Defined.







(** What a pass that returns did: the batch is the list of the files
    found that are not tracked, and the table is the one after it. *)
Lemma pass_returns s eng t directory db' :
  check_for_new_files s eng (Some t) directory = (Returns tt, db') →
  ∃ found,
    visit_all s (walk_paths (Os.walk s directory)) = Returns found
    ∧ detect s (Some t) directory
      = Returns (filter (untracked (tracked_of t)) found)
    ∧ db' = Some (apply_batch eng 0 t (filter (untracked (tracked_of t)) found)).
Proof.
  unfold check_for_new_files. rewrite detect_visit.
  destruct (visit_all s _) as [found|x]; [|done]. outcome_simpl.
  intros Hpass. exists found. split_and!; [done..|].
  destruct (filter _ found) as [|e batch].
  - by injection Hpass as <-.
  - by apply update_returns in Hpass.
Qed.




(** After a pass that returned, every file found is tracked, provided
    that equal contents mean equal paths. *)
Lemma pass_tracks_all s eng t directory found e :
  distinct_contents s directory →
  visit_all s (walk_paths (Os.walk s directory)) = Returns found →
  e ∈ found →
  (p_path e, p_checksum e)
  ∈ tracked_of (apply_batch eng 0 t (filter (untracked (tracked_of t)) found)).
Proof.
  intros Hdist Hall He. set (batch := filter _ found).
  assert (Hsame : ∀ e', e' ∈ found → p_checksum e' = p_checksum e →
                        p_path e' = p_path e).
  { intros e' He' Heq.
    destruct (visit_all_elem _ _ _ _ Hall He) as [Hin Hv].
    destruct (visit_all_elem _ _ _ _ Hall He') as [Hin' Hv'].
    apply visit_some in Hv as (Hf & _ & _ & Hc & _).
    apply visit_some in Hv' as (Hf' & _ & _ & Hc' & _).
    apply (Hdist _ _ (p_checksum e)); try done; try (by apply walked_paths).
    by rewrite <- Heq. }
  apply tracked_of_elem.
  destruct (decide (untracked (tracked_of t) e)) as [Hun|Htr].
  - assert (Hb : e ∈ batch) by (by apply list_elem_of_filter).
    destruct (apply_batch_stored eng 0 t batch e Hb)
      as (e' & i & n & He' & Heq & Hrows).
    exists (row_of i n e').
    assert (Hin : row_of i n e'
                  ∈ rows_with (p_checksum e) (apply_batch eng 0 t batch))
      by (rewrite Hrows; by left).
    apply rows_with_elem in Hin as [Hin _]. split_and!; [done| |done].
    cbn [path row_of]. apply Hsame; [|done].
    by apply list_elem_of_filter in He' as [_ He'].
  - apply dec_stable in Htr.
    apply tracked_of_elem in Htr as (r & Hr & Hp & Hc).
    exists r. split_and!; [|done..].
    assert (Hin : r ∈ rows_with (p_checksum e) (apply_batch eng 0 t batch)).
    { rewrite apply_batch_untouched; [by apply rows_with_elem|].
      intros e' He' Heq. apply list_elem_of_filter in He' as [Hun He'].
      apply Hun. rewrite Heq, (Hsame e' He' Heq). apply tracked_of_elem.
      by exists r. }
    by apply rows_with_elem in Hin as [Hin _].
Qed.

(** C3, as the code has it.  When no two files of the tree at different
    paths have the same content, a pass that follows a pass that
    returned, over the same tree, finds nothing: its batch is empty,
    [_update_file_metadata] is not called, and the store is the same
    before and after it. *)
Theorem second_pass_is_noop s eng eng' db directory db1 :
  distinct_contents s directory →
  check_for_new_files s eng db directory = (Returns tt, db1) →
  detect s db1 directory = Returns []
  ∧ check_for_new_files s eng' db1 directory = (Returns tt, db1).
Proof.
  intros Hdist Hpass. destruct db as [t|]; [|done].
  destruct (pass_returns _ _ _ _ _ Hpass) as (found & Hall & _ & ->).
  assert (Hdet : detect s
            (Some (apply_batch eng 0 t (filter (untracked (tracked_of t)) found)))
            directory = Returns []).
  { rewrite detect_visit, Hall. outcome_simpl. f_equal.
    apply filter_none. intros e He Hun. apply Hun.
    by apply (pass_tracks_all s eng t directory found). }
  split; [done|]. unfold check_for_new_files. by rewrite Hdet.
Qed.

Lemma two_files_distinct : distinct_contents Examples.two_files "data".
Proof.
  assert (Hw : ∀ p, walked Examples.two_files "data" p →
                    p = "data/a.txt"%string ∨ p = "data/b.txt"%string).
  { intros p (root & dirs & files & file & Htr & Hfile & ->).
    cbn in Htr. apply list_elem_of_singleton in Htr. injection Htr as -> -> ->.
    apply elem_of_cons in Hfile as [->|Hfile]; [by left|].
    apply list_elem_of_singleton in Hfile as ->. by right. }
  intros p1 p2 c H1 H2 _ _.
  destruct (Hw p1 H1) as [->| ->]; destruct (Hw p2 H2) as [->| ->];
    try done; vm_compute; congruence.
Qed.

Lemma second_pass_is_noop_witness :
  detect Examples.two_files
    (check_for_new_files Examples.two_files Examples.reliable
       (Some empty_table) "data").2 "data" = Returns []
  ∧ check_for_new_files Examples.two_files Examples.failing_second
      (check_for_new_files Examples.two_files Examples.reliable
         (Some empty_table) "data").2 "data"
    = (Returns tt,
       (check_for_new_files Examples.two_files Examples.reliable
          (Some empty_table) "data").2).
Proof.
  apply (second_pass_is_noop Examples.two_files Examples.reliable
           Examples.failing_second (Some empty_table) "data").
  - exact two_files_distinct.
  - vm_compute. reflexivity.
Defined.

(** C3 as stated fails: with two files of the same content, the first
    pass on an empty store leaves one row, for the second path; the
    second pass over the unchanged tree finds the first path untracked,
    calls [_update_file_metadata] and changes the store. *)
Lemma idempotence_counterexample :
  let db1 := Some (Table [Row 2 "b.txt" "data/b.txt" 101 5 Examples.sha_hello
                              (Datetime 2000 (Some utc))] 2) in
  check_for_new_files Examples.twins Examples.reliable (Some empty_table) "data"
  = (Returns tt, db1)
  ∧ detect Examples.twins db1 "data"
    = Returns [("data/a.txt"%string, 5, Examples.sha_hello, Datetime 1000 None)]
  ∧ check_for_new_files Examples.twins (Examples.reliable_from 200) db1 "data"
    = (Returns tt,
       Some (Table [Row 3 "a.txt" "data/a.txt" 200 5 Examples.sha_hello
                        (Datetime 1000 (Some utc))] 3))
  ∧ ¬ second_pass_always_noop.
Proof.
  cbn zeta.
  assert (Hpass : check_for_new_files Examples.twins Examples.reliable
                    (Some empty_table) "data"
                  = (Returns tt,
                     Some (Table [Row 2 "b.txt" "data/b.txt" 101 5
                                      Examples.sha_hello
                                      (Datetime 2000 (Some utc))] 2)))
    by (vm_compute; reflexivity).
  split; [exact Hpass|].
  split; [vm_compute; reflexivity|].
  split; [vm_compute; reflexivity|]. intros Hclaim.
  destruct (Hclaim _ _ Examples.reliable _ _ _ Hpass) as [Hdet _].
  vm_compute in Hdet. discriminate.
Qed.

Lemma visit_all_settled s t paths found :
  visit_all s paths = Returns found →
  (∀ p, p ∈ paths → settled s t p) →
  filter (untracked (tracked_of t)) found = [].
Proof.
  intros Hfound Hall. apply filter_none. intros e He Hun.
  destruct (visit_all_elem _ _ _ _ Hfound He) as [Hin Hv].
  apply visit_some in Hv as (Hf & _ & _ & Hc & _).
  destruct (Hall (p_path e) Hin) as [Hnf|(c & Hc' & Htr)]; [congruence|].
  apply Hun. congruence.
Qed.

(** C7, as the code has it.  When the content of a tracked file changes
    to one whose checksum the store does not hold, its path and the
    rest of the tree staying as they were, a pass that returns has
    inserted one record, for the new checksum and the same path; every
    row that was stored is still there, the one of the old checksum
    too, and the store has one row more. *)
Theorem new_content_adds_one_record
    s eng t directory t' before p after c_old c_new :
  walk_paths (Os.walk s directory) = before ++ p :: after →
  (∀ q, q ∈ before ++ after → settled s t q) →
  (p, c_old) ∈ tracked_of t →
  Os.path_isfile s p = true →
  calculate_checksum s p = Returns c_new →
  (∀ r, r ∈ rows t → checksum r ≠ c_new) →
  check_for_new_files s eng (Some t) directory = (Returns tt, Some t') →
  ∃ r_new,
    rows t' = rows t ++ [r_new]
    ∧ checksum r_new = c_new
    ∧ path r_new = p
    ∧ filename r_new = Os.path_basename p
    ∧ (∃ r_old, r_old ∈ rows t' ∧ path r_old = p ∧ checksum r_old = c_old)
    ∧ (∀ r, r ∈ rows t → r ∈ rows t')
    ∧ length (rows t') = S (length (rows t)).
Proof.
  intros Hwalk Hrest Hold Hf Hnew Hfresh Hpass.
  destruct (pass_returns _ _ _ _ _ Hpass) as (found & Hall & _ & Ht').
  injection Ht' as ->. rewrite Hwalk in Hall.
  apply visit_all_split in Hall as (f1 & o & f2 & Hf1 & Hv & Hf2 & ->).
  assert (Hn1 : filter (untracked (tracked_of t)) f1 = []).
  { apply (visit_all_settled s t before); [done|].
    intros q Hq. apply Hrest, elem_of_app. by left. }
  assert (Hn2 : filter (untracked (tracked_of t)) f2 = []).
  { apply (visit_all_settled s t after); [done|].
    intros q Hq. apply Hrest, elem_of_app. by right. }
  destruct (visit_file s p Hf) as [_ Hvis].
  destruct (Hvis c_new Hnew) as (e & Hv' & Hep & Hec).
  rewrite Hv' in Hv. injection Hv as <-. cbn [option_list option_rect].
  assert (Hun : untracked (tracked_of t) e).
  { unfold untracked. rewrite Hep, Hec. intros Htr.
    apply tracked_of_elem in Htr as (r & Hr & _ & Hc). by apply (Hfresh r). }
  rewrite !filter_app, Hn1, Hn2, filter_cons_True, filter_nil by done.
  cbn [app].
  exists (row_of (next_id t) (current_timestamp eng 0) e).
  assert (Hrows : rows (apply_batch eng 0 t [e])
                  = rows t ++ [row_of (next_id t) (current_timestamp eng 0) e]).
  { cbn [apply_batch]. rewrite insert_rows, filter_fresh; [done|].
    intros r Hr. rewrite Hec. by apply Hfresh. }
  split_and!.
  - done.
  - done.
  - done.
  - cbn [filename row_of]. by rewrite Hep.
  - apply tracked_of_elem in Hold as (r & Hr & Hp & Hc).
    exists r. rewrite Hrows. split_and!; [|done..].
    apply elem_of_app. by left.
  - intros r Hr. rewrite Hrows. apply elem_of_app. by left.
  - rewrite Hrows, length_app. cbn. lia.
Qed.

Lemma new_content_adds_one_record_witness :
  check_for_new_files Examples.a_rewritten (Examples.reliable_from 300)
    (Some Examples.after_first_run) "data"
  = (Returns tt,
     Some (Table
       (rows Examples.after_first_run
        ++ [Row 3 "a.txt" "data/a.txt" 300 6
                "87298cc2f31fba73181ea2a9e6ef10dce21ed95e98bdac9c4e1504ea16f486e4"
                (Datetime 3000 (Some utc))]) 3))
  ∧ ∃ r_new,
      rows Examples.after_first_run
      ++ [Row 3 "a.txt" "data/a.txt" 300 6
              "87298cc2f31fba73181ea2a9e6ef10dce21ed95e98bdac9c4e1504ea16f486e4"
              (Datetime 3000 (Some utc))]
      = rows Examples.after_first_run ++ [r_new]
      ∧ checksum r_new
        = "87298cc2f31fba73181ea2a9e6ef10dce21ed95e98bdac9c4e1504ea16f486e4"%string
      ∧ path r_new = "data/a.txt"%string.
Proof.
  assert (Hpass : check_for_new_files Examples.a_rewritten
                    (Examples.reliable_from 300)
                    (Some Examples.after_first_run) "data"
                  = (Returns tt,
                     Some (Table
                       (rows Examples.after_first_run
                        ++ [Row 3 "a.txt" "data/a.txt" 300 6
                                "87298cc2f31fba73181ea2a9e6ef10dce21ed95e98bdac9c4e1504ea16f486e4"
                                (Datetime 3000 (Some utc))]) 3)))
    by (vm_compute; reflexivity).
  split; [exact Hpass|].
  destruct (new_content_adds_one_record Examples.a_rewritten
              (Examples.reliable_from 300) Examples.after_first_run "data"
              (Table
                 (rows Examples.after_first_run
                  ++ [Row 3 "a.txt" "data/a.txt" 300 6
                          "87298cc2f31fba73181ea2a9e6ef10dce21ed95e98bdac9c4e1504ea16f486e4"
                          (Datetime 3000 (Some utc))]) 3)
              [] "data/a.txt" ["data/b.txt"%string] Examples.sha_hello
              "87298cc2f31fba73181ea2a9e6ef10dce21ed95e98bdac9c4e1504ea16f486e4")
    as (r_new & Hrows & Hsum & Hpath & _); [..|exact Hpass|].
  - vm_compute. reflexivity.
  - intros q Hq. apply list_elem_of_singleton in Hq as ->. right.
    exists "486ea46224d1bb4fb680f34f7c9ad96a8f24ec88be73ea8e5a6c65260e9cb8a7"%string.
    split; [vm_compute; reflexivity|].
    apply tracked_of_elem. eexists. split; [right; left|]. split; reflexivity.
  - apply tracked_of_elem. eexists. split; [left|]. split; reflexivity.
  - vm_compute. reflexivity.
  - vm_compute. reflexivity.
  - intros r Hr. apply elem_of_cons in Hr as [->|Hr]; [discriminate|].
    apply list_elem_of_singleton in Hr as ->. discriminate.
  - exists r_new. by split_and!.
Defined.

(** C7 as stated fails: [data/a.txt] ("hello") and [data/b.txt]
    ("world") are tracked; [data/a.txt] is rewritten to "world".  Its
    checksum is not the old one and its pair is not tracked, so the
    file is upserted, and the INSERT OR REPLACE deletes the row of
    [data/b.txt], which has that checksum: the store has two rows
    before and two rows after. *)
Lemma changed_content_counterexample :
  calculate_checksum Examples.a_like_b "data/a.txt"
  = Returns "486ea46224d1bb4fb680f34f7c9ad96a8f24ec88be73ea8e5a6c65260e9cb8a7"%string
  ∧ check_for_new_files Examples.a_like_b (Examples.reliable_from 300)
      (Some Examples.after_first_run) "data"
    = (Returns tt,
       Some (Table
         [Row 1 "a.txt" "data/a.txt" 100 5 Examples.sha_hello
              (Datetime 1000 (Some utc));
          Row 3 "a.txt" "data/a.txt" 300 5
              "486ea46224d1bb4fb680f34f7c9ad96a8f24ec88be73ea8e5a6c65260e9cb8a7"
              (Datetime 3000 (Some utc))] 3))
  ∧ length (rows Examples.after_first_run) = 2%nat
  ∧ ¬ changed_content_grows_store.
Proof.
  assert (Hpass : check_for_new_files Examples.a_like_b
                    (Examples.reliable_from 300)
                    (Some Examples.after_first_run) "data"
                  = (Returns tt,
                     Some (Table
                       [Row 1 "a.txt" "data/a.txt" 100 5 Examples.sha_hello
                            (Datetime 1000 (Some utc));
                        Row 3 "a.txt" "data/a.txt" 300 5
                            "486ea46224d1bb4fb680f34f7c9ad96a8f24ec88be73ea8e5a6c65260e9cb8a7"
                            (Datetime 3000 (Some utc))] 3)))
    by (vm_compute; reflexivity).
  split; [vm_compute; reflexivity|].
  split; [exact Hpass|].
  split; [reflexivity|]. intros Hclaim.
  destruct (Hclaim Examples.a_like_b (Examples.reliable_from 300)
              Examples.after_first_run "data"%string
              [] "data/a.txt"%string ["data/b.txt"%string] Examples.sha_hello
              "486ea46224d1bb4fb680f34f7c9ad96a8f24ec88be73ea8e5a6c65260e9cb8a7"%string
              (Table
                 [Row 1 "a.txt" "data/a.txt" 100 5 Examples.sha_hello
                      (Datetime 1000 (Some utc));
                  Row 3 "a.txt" "data/a.txt" 300 5
                      "486ea46224d1bb4fb680f34f7c9ad96a8f24ec88be73ea8e5a6c65260e9cb8a7"
                      (Datetime 3000 (Some utc))] 3))
    as (r_new & _ & _ & _ & Hlen); [..|exact Hpass|].
  - vm_compute. reflexivity.
  - intros q Hq. apply list_elem_of_singleton in Hq as ->. right.
    exists "486ea46224d1bb4fb680f34f7c9ad96a8f24ec88be73ea8e5a6c65260e9cb8a7"%string.
    split; [vm_compute; reflexivity|].
    apply tracked_of_elem. eexists. split; [right; left|]. split; reflexivity.
  - apply tracked_of_elem. eexists. split; [left|]. split; reflexivity.
  - discriminate.
  - vm_compute. reflexivity.
  - vm_compute. reflexivity.
  - cbn in Hlen. discriminate.
Qed.

(** The same when the content goes back to one that was recorded for the
    path: the pair is tracked and nothing is inserted. *)
Example reverted_content_inserts_nothing :
  let stored :=
    Table
      (rows Examples.after_first_run
       ++ [Row 3 "a.txt" "data/a.txt" 300 6
               "87298cc2f31fba73181ea2a9e6ef10dce21ed95e98bdac9c4e1504ea16f486e4"
               (Datetime 3000 (Some utc))]) 3 in
  detect Examples.two_files (Some stored) "data" = Returns []
  ∧ check_for_new_files Examples.two_files (Examples.reliable_from 400)
      (Some stored) "data"
    = (Returns tt, Some stored).
Proof. cbn zeta. split; vm_compute; reflexivity. Qed.

(** C10. When untracked files at several paths have the same content,
    each of them is in the batch, and after a pass that returned the
    store has one row for their checksum, with the filename and path of
    the one that comes last in the walk. *)
Theorem same_content_last_path_wins
    s eng t directory t' c before p_last after :
  check_for_new_files s eng (Some t) directory = (Returns tt, Some t') →
  walk_paths (Os.walk s directory) = before ++ p_last :: after →
  new_with s t c p_last →
  (∀ q, q ∈ after → ¬ new_with s t c q) →
  (∃ batch,
     detect s (Some t) directory = Returns batch
     ∧ ∀ q, walked s directory q → new_with s t c q →
            ∃ e, e ∈ batch ∧ p_path e = q ∧ p_checksum e = c)
  ∧ ∃ r, rows_with c t' = [r]
         ∧ path r = p_last
         ∧ filename r = Os.path_basename p_last.
Proof.
  intros Hpass Hwalk (Hf & Hc & Hun) Hafter.
  destruct (pass_returns _ _ _ _ _ Hpass) as (found & Hall & Hdet & Ht').
  injection Ht' as ->. split.
  - eexists. split; [exact Hdet|]. intros q Hq (Hqf & Hqc & Hqun).
    destruct (visit_file s q Hqf) as [_ Hvis].
    destruct (Hvis c Hqc) as (e & Hv & Hep & Hec).
    exists e. split_and!; [|done..].
    apply list_elem_of_filter. split.
    + unfold untracked. by rewrite Hep, Hec.
    + eapply visit_all_found; [exact Hall| |exact Hv]. by apply walked_paths.
  - rewrite Hwalk in Hall.
    apply visit_all_split in Hall as (f1 & o & f2 & Hf1 & Hv & Hf2 & ->).
    destruct (visit_file s p_last Hf) as [_ Hvis].
    destruct (Hvis c Hc) as (e & Hv' & Hep & Hec).
    rewrite Hv' in Hv. injection Hv as <-. cbn [option_list option_rect].
    rewrite !filter_app, filter_cons_True
      by (unfold untracked; by rewrite Hep, Hec).
    cbn [app].
    destruct (apply_batch_last eng 0 t
                (filter (untracked (tracked_of t)) f1) e
                (filter (untracked (tracked_of t)) f2)) as (i & n & Hrows).
    { intros e' He' Heq. apply list_elem_of_filter in He' as [Hun' He'].
      destruct (visit_all_elem _ _ _ _ Hf2 He') as [Hin Hve].
      apply visit_some in Hve as (Hfe & _ & _ & Hce & _).
      apply (Hafter (p_path e') Hin). split_and!; [done| |].
      - rewrite Hce. f_equal. congruence.
      - unfold untracked in Hun'. congruence. }
    exists (row_of i n e). rewrite <- Hec. split_and!; [done| |].
    + cbn [path row_of]. done.
    + cbn [filename row_of]. by rewrite Hep.
Qed.

Lemma same_content_last_path_wins_witness :
  ∃ r, rows_with Examples.sha_hello
         (Table [Row 2 "b.txt" "data/b.txt" 101 5 Examples.sha_hello
                     (Datetime 2000 (Some utc))] 2) = [r]
       ∧ path r = "data/b.txt"%string
       ∧ filename r = Os.path_basename "data/b.txt".
Proof.
  refine (proj2 (same_content_last_path_wins Examples.twins Examples.reliable
            empty_table "data" _ Examples.sha_hello ["data/a.txt"%string]
            "data/b.txt" [] _ _ _ _)).
  - vm_compute. reflexivity.
  - vm_compute. reflexivity.
  - split_and!; [vm_compute; reflexivity..|].
    intros Hin. apply tracked_of_elem in Hin as (r & Hr & _).
    by apply not_elem_of_nil in Hr.
  - intros q Hq. by apply not_elem_of_nil in Hq.
Defined.


(** * Further properties of the code *)

(** ** The pass as a whole *)

(** The batch of a pass is made of files of the walk, with the checksum
    that [calculate_checksum] gives them, and none of them is tracked. *)
Lemma batch_elem s t directory found e :
  visit_all s (walk_paths (Os.walk s directory)) = Returns found →
  e ∈ filter (untracked (tracked_of t)) found →
  walked s directory (p_path e)
  ∧ Os.path_isfile s (p_path e) = true
  ∧ calculate_checksum s (p_path e) = Returns (p_checksum e)
  ∧ (p_path e, p_checksum e) ∉ tracked_of t.
Proof.
  intros Hall He. apply list_elem_of_filter in He as [Hun He].
  destruct (visit_all_elem _ _ _ _ Hall He) as [Hin Hv].
  apply visit_some in Hv as (Hf & _ & _ & Hc & _).
  split_and!; [by apply walked_paths | done..].
Qed.

(** The database after a pass, whatever its outcome. *)
Lemma pass_database s eng t directory :
  (check_for_new_files s eng (Some t) directory).2 = Some t
  ∨ ∃ found,
      visit_all s (walk_paths (Os.walk s directory)) = Returns found
      ∧ check_for_new_files s eng (Some t) directory
        = (Returns tt,
           Some (apply_batch eng 0 t (filter (untracked (tracked_of t)) found))).
Proof.
  unfold check_for_new_files. rewrite detect_visit.
  destruct (visit_all s _) as [found|x]; [|by left]. outcome_simpl.
  destruct (filter _ found) as [|e batch] eqn:Hbatch; [by left|].
  destruct (update_outcomes eng (e :: batch) (Some t)) as [[x ->]| ->];
    [by left|].
  right. exists found. by rewrite Hbatch.
Qed.

(** X1. A pass that raises leaves the database as it was, whether the
    exception comes from the snapshot, from a file or from the store. *)
Theorem pass_raises_unchanged s eng db directory x db' :
  check_for_new_files s eng db directory = (Raises x, db') → db' = db.
Proof.
  unfold check_for_new_files.
  destruct (detect s db directory) as [[|e batch]|y].
  - discriminate.
  - destruct (update_outcomes eng (e :: batch) db) as [[z ->]| ->];
      [by intros [= _ <-] | discriminate].
  - by intros [= _ <-].
Qed.

Lemma pass_raises_unchanged_witness :
  check_for_new_files Examples.two_files Examples.failing_second
    (Some empty_table) "data"
  = (Raises OperationalError, Some empty_table)
  ∧ Some empty_table = Some empty_table.
Proof.
  assert (Hpass : check_for_new_files Examples.two_files Examples.failing_second
                    (Some empty_table) "data"
                  = (Raises OperationalError, Some empty_table))
    by (vm_compute; reflexivity).
  split; [exact Hpass|].
  exact (pass_raises_unchanged _ _ _ _ _ _ Hpass).
Defined.

(** X2. A pass deletes a record only to replace it: a row stays in the
    table, whatever the outcome of the pass, unless an untracked file of
    the walk has its checksum.  The record of a file that was removed
    from the disk is kept. *)
Theorem pass_keeps_other_rows s eng t directory r :
  r ∈ rows t →
  (∀ p, walked s directory p → Os.path_isfile s p = true →
        calculate_checksum s p = Returns (checksum r) →
        (p, checksum r) ∈ tracked_of t) →
  ∃ t', (check_for_new_files s eng (Some t) directory).2 = Some t'
        ∧ r ∈ rows t'.
Proof.
  intros Hr Hkeep.
  destruct (pass_database s eng t directory) as [Hsame|(found & Hall & ->)].
  - by exists t.
  - eexists. split; [done|].
    assert (Hin : r ∈ rows_with (checksum r)
              (apply_batch eng 0 t (filter (untracked (tracked_of t)) found))).
    { rewrite apply_batch_untouched; [by apply rows_with_elem|].
      intros e He Heq.
      destruct (batch_elem _ _ _ _ _ Hall He) as (Hw & Hf & Hc & Hun).
      apply Hun. rewrite Heq. apply Hkeep; [done..|by rewrite <- Heq]. }
    by apply rows_with_elem in Hin as [Hin _].
Qed.

Lemma pass_keeps_other_rows_witness :
  ∃ t', (check_for_new_files Examples.a_removed Examples.reliable
           (Some Examples.after_first_run) "data").2 = Some t'
        ∧ (Row 1 "a.txt" "data/a.txt" 100 5 Examples.sha_hello
               (Datetime 1000 (Some utc))) ∈ rows t'.
Proof.
  apply (pass_keeps_other_rows Examples.a_removed Examples.reliable
           Examples.after_first_run "data").
  - left.
  - intros p (root & dirs & files & file & Htr & Hfile & ->) _ Hsum.
    cbn in Htr. apply list_elem_of_singleton in Htr. injection Htr as -> -> ->.
    apply list_elem_of_singleton in Hfile as ->.
    vm_compute in Hsum. discriminate.
Defined.

(** X3. The checksums of the store only grow: after a pass, whatever its
    outcome, every checksum that was stored is still stored, and a table
    that obeys the UNIQUE constraint has at least as many rows as
    before. *)
Theorem pass_keeps_checksums s eng t directory :
  ∃ t', (check_for_new_files s eng (Some t) directory).2 = Some t'
        ∧ (∀ r, r ∈ rows t → ∃ r', r' ∈ rows t' ∧ checksum r' = checksum r)
        ∧ (unique_checksums t → (length (rows t) ≤ length (rows t'))%nat).
Proof.
  destruct (pass_database s eng t directory) as [Hsame|(found & Hall & ->)].
  { exists t. split_and!; [done|by eauto|done]. }
  set (batch := filter _ found).
  assert (Hkept : ∀ r, r ∈ rows t →
            ∃ r', r' ∈ rows (apply_batch eng 0 t batch)
                  ∧ checksum r' = checksum r).
  { intros r Hr.
    destruct (decide (Exists (fun e => p_checksum e = checksum r) batch))
      as [Hex|Hnone].
    - apply Exists_exists in Hex as (e & He & Heq).
      destruct (apply_batch_stored eng 0 t batch e He)
        as (e' & i & n & _ & _ & Hrows).
      exists (row_of i n e').
      assert (Hin : row_of i n e'
                    ∈ rows_with (p_checksum e) (apply_batch eng 0 t batch))
        by (rewrite Hrows; by left).
      apply rows_with_elem in Hin as [Hin Hc]. split; [done|congruence].
    - exists r. split; [|done].
      assert (Hin : r ∈ rows_with (checksum r) (apply_batch eng 0 t batch)).
      { rewrite apply_batch_untouched; [by apply rows_with_elem|].
        intros e He Heq. apply Hnone, Exists_exists. by exists e. }
      by apply rows_with_elem in Hin as [Hin _]. }
  eexists. split_and!; [done|exact Hkept|].
  intros Hu. rewrite <- (length_fmap checksum (rows t)).
  rewrite <- (length_fmap checksum (rows (apply_batch eng 0 t batch))).
  apply submseteq_length, NoDup_submseteq; [exact Hu|].
  intros c Hc. apply list_elem_of_fmap in Hc as (r & -> & Hr).
  destruct (Hkept r Hr) as (r' & Hr' & <-). by apply list_elem_of_fmap_2.
Qed.

Lemma pass_keeps_checksums_witness :
  unique_checksums Examples.after_first_run
  ∧ ∃ t', (check_for_new_files Examples.a_rewritten (Examples.reliable_from 300)
             (Some Examples.after_first_run) "data").2 = Some t'
          ∧ (length (rows Examples.after_first_run) ≤ length (rows t'))%nat.
Proof.
  assert (Hu : unique_checksums Examples.after_first_run).
  { unfold unique_checksums. vm_compute.
    apply NoDup_cons. split; [|apply NoDup_singleton].
    intros Hin. apply list_elem_of_singleton in Hin. discriminate. }
  split; [exact Hu|].
  destruct (pass_keeps_checksums Examples.a_rewritten (Examples.reliable_from 300)
              Examples.after_first_run "data") as (t' & Ht' & _ & Hlen).
  exists t'. split; [exact Ht'|]. exact (Hlen Hu).
Defined.

(** X4. After a pass that returned, the content of every file of the
    walk is known to the store: its checksum has a row, and exactly one
    when the table obeyed the UNIQUE constraint. *)
Theorem pass_stores_every_content s eng t directory t' p c :
  check_for_new_files s eng (Some t) directory = (Returns tt, Some t') →
  walked s directory p →
  Os.path_isfile s p = true →
  calculate_checksum s p = Returns c →
  (∃ r, r ∈ rows t' ∧ checksum r = c)
  ∧ (unique_checksums t → ∃ r, rows_with c t' = [r]).
Proof.
  intros Hpass Hw Hf Hc.
  destruct (pass_returns _ _ _ _ _ Hpass) as (found & Hall & _ & Ht').
  injection Ht' as ->. set (batch := filter _ found).
  destruct (visit_file s p Hf) as [_ Hvis].
  destruct (Hvis c Hc) as (e & Hv & Hep & Hec).
  assert (He : e ∈ found).
  { eapply visit_all_found; [exact Hall| |exact Hv]. by apply walked_paths. }
  assert (Hex : ∃ r, r ∈ rows (apply_batch eng 0 t batch) ∧ checksum r = c).
  { destruct (decide (Exists (fun e' => p_checksum e' = c) batch))
      as [Hin|Hnone].
    - apply Exists_exists in Hin as (e' & He' & Heq).
      destruct (apply_batch_stored eng 0 t batch e' He')
        as (e2 & i & n & _ & _ & Hrows).
      exists (row_of i n e2).
      assert (Hin : row_of i n e2
                    ∈ rows_with (p_checksum e') (apply_batch eng 0 t batch))
        by (rewrite Hrows; by left).
      apply rows_with_elem in Hin as [Hin Hsum]. split; [done|congruence].
    - assert (Htr : (p, c) ∈ tracked_of t).
      { destruct (decide ((p, c) ∈ tracked_of t)) as [|Hun]; [done|].
        exfalso. apply Hnone, Exists_exists. exists e. split; [|done].
        apply list_elem_of_filter. split; [|done].
        unfold untracked. by rewrite Hep, Hec. }
      apply tracked_of_elem in Htr as (r & Hr & _ & Hsum).
      exists r. split; [|done].
      assert (Hin : r ∈ rows_with c (apply_batch eng 0 t batch)).
      { rewrite apply_batch_untouched; [by apply rows_with_elem|].
        intros e' He' Heq. apply Hnone, Exists_exists. by exists e'. }
      by apply rows_with_elem in Hin as [Hin _]. }
  split; [exact Hex|]. intros Hu.
  destruct Hex as (r & Hr & <-). exists r.
  apply unique_rows_with; [by apply apply_batch_unique | done].
Qed.

Lemma pass_stores_every_content_witness :
  ∃ r, r ∈ rows (Table [Row 2 "b.txt" "data/b.txt" 101 5 Examples.sha_hello
                            (Datetime 2000 (Some utc))] 2)
       ∧ checksum r = Examples.sha_hello.
Proof.
  refine (proj1 (pass_stores_every_content Examples.twins Examples.reliable
            empty_table "data" _ "data/a.txt" Examples.sha_hello _ _ _ _)).
  - vm_compute. reflexivity.
  - exists "data"%string, [], ["a.txt"; "b.txt"]%string, "a.txt"%string.
    split_and!; [vm_compute; left | left | reflexivity].
  - vm_compute. reflexivity.
  - vm_compute. reflexivity.
Defined.



(** ** What a pass writes *)





(** ** AUTOINCREMENT *)

Lemma max_rowid_bound (l : list row) r : r ∈ l → id r ≤ max_rowid l.
Proof.
  induction l as [|a l IH]; intros Hr; [by apply not_elem_of_nil in Hr|].
  cbn [max_rowid foldr]. apply elem_of_cons in Hr as [->|Hr].
  - apply Z.le_max_l.
  - etrans; [by apply IH | apply Z.le_max_r].
Qed.

Lemma insert_numbered now t e :
  well_numbered t →
  well_numbered (insert_or_replace now t (params_of e))
  ∧ seq t < seq (insert_or_replace now t (params_of e))
  ∧ ∀ r, r ∈ rows (insert_or_replace now t (params_of e)) →
         r ∈ rows t ∨ seq t < id r.
Proof.
  intros [Hnd Hle].
  assert (Hseq : seq (insert_or_replace now t (params_of e)) = next_id t)
    by (by destruct e as [[[p sz] c] m]).
  assert (Hnext : seq t < next_id t) by (unfold next_id; lia).
  unfold well_numbered. rewrite Hseq, insert_rows. split_and!.
  - rewrite fmap_app. apply NoDup_app. split_and!.
    + eapply sublist_NoDup; [exact Hnd | apply fmap_sublist, sublist_filter].
    + intros i Hi Hi'. apply list_elem_of_singleton in Hi'.
      apply list_elem_of_fmap in Hi as (r & -> & Hr).
      apply list_elem_of_filter in Hr as [_ Hr].
      cbn [id row_of] in Hi'. specialize (Hle r Hr). lia.
    + apply NoDup_singleton.
  - intros r Hr. apply elem_of_app in Hr as [Hr|Hr].
    + apply list_elem_of_filter in Hr as [_ Hr]. specialize (Hle r Hr). lia.
    + apply list_elem_of_singleton in Hr as ->. cbn [id row_of]. lia.
  - done.
  - intros r Hr. apply elem_of_app in Hr as [Hr|Hr].
    + left. by apply list_elem_of_filter in Hr as [_ Hr].
    + right. apply list_elem_of_singleton in Hr as ->. by cbn [id row_of].
Qed.

Lemma apply_batch_numbered eng k t batch :
  well_numbered t →
  well_numbered (apply_batch eng k t batch)
  ∧ seq t ≤ seq (apply_batch eng k t batch)
  ∧ ∀ r, r ∈ rows (apply_batch eng k t batch) → r ∈ rows t ∨ seq t < id r.
Proof.
  revert k t. induction batch as [|e batch IH]; intros k t Hwn.
  - split_and!; [done|done|by left].
  - cbn [apply_batch].
    destruct (insert_numbered (current_timestamp eng k) t e Hwn)
      as (Hwn1 & Hseq1 & Hrows1).
    destruct (IH (S k) _ Hwn1) as (Hwn2 & Hseq2 & Hrows2).
    split_and!; [done|lia|].
    intros r Hr. destruct (Hrows2 r Hr) as [Hr1|Hlt]; [|right; lia].
    by apply Hrows1.
Qed.

(** X6. The ids are given out in increasing order and never again: a
    call of [_update_file_metadata] that returns keeps the ids distinct
    and below the sequence, the sequence does not go down, and every row
    it writes has an id above the sequence as it was, so above the id
    of every row that ever was in the table, deleted ones included. *)
Theorem ids_increase_and_are_not_reused eng batch t t' :
  well_numbered t →
  _update_file_metadata eng batch (Some t) = (Returns tt, Some t') →
  well_numbered t'
  ∧ seq t ≤ seq t'
  ∧ (∀ r, r ∈ rows t' → r ∈ rows t ∨ seq t < id r)
  ∧ (∀ r_old r, r_old ∈ rows t → r ∈ rows t' → r ∉ rows t → id r_old < id r).
Proof.
  intros Hwn Hupd. apply update_returns in Hupd. injection Hupd as ->.
  destruct (apply_batch_numbered eng 0 t batch Hwn) as (Hwn' & Hseq & Hrows).
  split_and!; [done..|].
  intros r_old r Hold Hr Hnew. destruct (Hrows r Hr) as [|Hlt]; [done|].
  destruct Hwn as [_ Hle]. specialize (Hle r_old Hold). lia.
Qed.

Lemma ids_increase_and_are_not_reused_witness :
  well_numbered Examples.hello_at_a
  ∧ well_numbered
      (Table [Row 2 "b.txt" "data/b.txt" 100 5 Examples.sha_hello
                  (Datetime 900 (Some utc))] 2).
Proof.
  assert (Hwn : well_numbered Examples.hello_at_a).
  { split.
    - vm_compute. apply NoDup_singleton.
    - intros r Hr. apply list_elem_of_singleton in Hr as ->. by vm_compute. }
  split; [exact Hwn|].
  refine (proj1 (ids_increase_and_are_not_reused Examples.reliable
            [("data/b.txt"%string, 5, Examples.sha_hello, Datetime 900 None)]
            Examples.hello_at_a _ Hwn _)).
  reflexivity.
Defined.

(** ** Upsert and lookup *)

(** The pairs tracked after a batch: those of the rows whose checksum
    the batch does not mention, and, for each checksum it mentions, the
    pair of its last element with that checksum. *)
Lemma tracked_after_batch eng k t batch p c :
  (p, c) ∈ tracked_of (apply_batch eng k t batch)
  ↔ ((p, c) ∈ tracked_of t ∧ ∀ e, e ∈ batch → p_checksum e ≠ c)
    ∨ ∃ before e after,
        batch = before ++ e :: after
        ∧ p_path e = p ∧ p_checksum e = c
        ∧ ∀ e', e' ∈ after → p_checksum e' ≠ c.
Proof.
  assert (Hrows : ∀ t0, (p, c) ∈ tracked_of t0
                        ↔ ∃ r, r ∈ rows_with c t0 ∧ path r = p).
  { intros t0. rewrite tracked_of_elem. split.
    - intros (r & Hr & Hp & Hc). exists r. by rewrite rows_with_elem.
    - intros (r & Hr & Hp). apply rows_with_elem in Hr as [Hr Hc]. by exists r. }
  rewrite Hrows.
  destruct (decide (Exists (fun e => p_checksum e = c) batch)) as [Hex|Hnone].
  - apply Exists_exists in Hex as (e0 & He0 & Hc0).
    destruct (last_such (fun e => p_checksum e = c) batch e0 He0 Hc0)
      as (before & e & after & -> & Hec & Hafter).
    destruct (apply_batch_last eng k t before e after) as (i & n & Hlast).
    { intros e' He' Heq. apply (Hafter e' He'). congruence. }
    rewrite Hec in Hlast. rewrite Hlast. split.
    + intros (r & Hr & Hp). apply list_elem_of_singleton in Hr as ->.
      right. by exists before, e, after.
    + intros [[_ Hno]|(before' & e' & after' & Heq & Hp' & Hc' & Hafter')].
      * exfalso. apply (Hno e); [|done]. apply elem_of_app. right. by left.
      * exists (row_of i n e). split; [by left|]. cbn [path row_of].
        assert (Hsame : after = after' ∧ e = e').
        { clear -Heq Hec Hc' Hafter Hafter'. revert before' Heq.
          induction before as [|a before IH]; intros [|a' before'] Heq.
          - injection Heq as -> ->. done.
          - injection Heq as -> ->. exfalso.
            apply (Hafter e'); [|done]. apply elem_of_app. right. by left.
          - injection Heq as <- <-. exfalso.
            apply (Hafter' e); [|done]. apply elem_of_app. right. by left.
          - injection Heq as -> Heq. by apply (IH before'). }
        destruct Hsame as [_ ->]. done.
  - assert (Hno : ∀ e, e ∈ batch → p_checksum e ≠ c).
    { intros e He Heq. apply Hnone, Exists_exists. by exists e. }
    rewrite apply_batch_untouched by done. rewrite <- Hrows. split.
    + intros Htr. by left.
    + intros [[Htr _]|(before & e & after & -> & _ & Hc & _)]; [done|].
      exfalso. apply (Hno e); [|done]. apply elem_of_app. right. by left.
Qed.

(** X9. What is upserted can be read back: after a call of
    [_update_file_metadata] that returned, [get_tracked_files] holds
    the (path, checksum) pair of every element of the batch that is the
    last one with its checksum, and every pair that it holds was
    tracked before or is the pair of an element of the batch. *)
Theorem upsert_then_load eng batch t t' :
  _update_file_metadata eng batch (Some t) = (Returns tt, Some t') →
  ∃ tracked,
    get_tracked_files (Some t') = Returns tracked
    ∧ (∀ before e after,
         batch = before ++ e :: after →
         (∀ e', e' ∈ after → p_checksum e' ≠ p_checksum e) →
         (p_path e, p_checksum e) ∈ tracked)
    ∧ (∀ p c, (p, c) ∈ tracked →
         (p, c) ∈ tracked_of t
         ∨ ∃ e, e ∈ batch ∧ p_path e = p ∧ p_checksum e = c).
Proof.
  intros Hupd. apply update_returns in Hupd. injection Hupd as ->.
  eexists. split; [reflexivity|]. split.
  - intros before e after -> Hafter. apply tracked_after_batch.
    right. by exists before, e, after.
  - intros p c Htr.
    apply tracked_after_batch in Htr
      as [[Htr _]|(before & e & after & -> & Hp & Hc & _)]; [by left|].
    right. exists e. split_and!; [|done..]. apply elem_of_app. right. by left.
Qed.

Lemma upsert_then_load_witness :
  ∃ tracked,
    get_tracked_files
      (Some (Table [Row 2 "b.txt" "data/b.txt" 100 5 Examples.sha_hello
                        (Datetime 900 (Some utc))] 2)) = Returns tracked
    ∧ ("data/b.txt"%string, Examples.sha_hello) ∈ tracked.
Proof.
  destruct (upsert_then_load Examples.reliable
              [("data/b.txt"%string, 5, Examples.sha_hello, Datetime 900 None)]
              Examples.hello_at_a
              (Table [Row 2 "b.txt" "data/b.txt" 100 5 Examples.sha_hello
                          (Datetime 900 (Some utc))] 2) eq_refl)
    as (tracked & Hload & Hin & _).
  exists tracked. split; [exact Hload|].
  apply (Hin [] ("data/b.txt"%string, 5, Examples.sha_hello, Datetime 900 None) []).
  - reflexivity.
  - intros e' He'. by apply not_elem_of_nil in He'.
Defined.

(** X10. Upserting a batch a second time changes no tracked pair: after
    two calls of [_update_file_metadata] with the same batch that both
    returned, [get_tracked_files] gives the same set as after the first
    (the rows of the batch get new ids and upload dates). *)
Theorem upsert_twice_same_tracked eng eng' batch t t1 t2 :
  _update_file_metadata eng batch (Some t) = (Returns tt, Some t1) →
  _update_file_metadata eng' batch (Some t1) = (Returns tt, Some t2) →
  get_tracked_files (Some t2) = get_tracked_files (Some t1).
Proof.
  intros H1 H2. apply update_returns in H1. injection H1 as ->.
  apply update_returns in H2. injection H2 as ->.
  cbn [get_tracked_files]. f_equal. apply set_eq. intros [p c].
  rewrite (tracked_after_batch eng' 0 _ batch p c).
  rewrite !(tracked_after_batch eng 0 t batch p c). split.
  - intros [[[[Htr _]|Hlast] Hno]|Hlast]; [by left|by right|by right].
  - intros [[Htr Hno]|Hlast]; [|by right].
    left. split; [|done]. by left.
Qed.

Lemma upsert_twice_same_tracked_witness :
  get_tracked_files
    (Some (Table [Row 3 "b.txt" "data/b.txt" 200 5 Examples.sha_hello
                      (Datetime 900 (Some utc))] 3))
  = get_tracked_files
      (Some (Table [Row 2 "b.txt" "data/b.txt" 100 5 Examples.sha_hello
                        (Datetime 900 (Some utc))] 2)).
Proof.
  apply (upsert_twice_same_tracked Examples.reliable (Examples.reliable_from 200)
           [("data/b.txt"%string, 5, Examples.sha_hello, Datetime 900 None)]
           Examples.hello_at_a); reflexivity.
Defined.

(** ** File names *)

Lemma string_app_assoc (a b c : string) :
  ((a +:+ b) +:+ c = a +:+ (b +:+ c))%string.
Proof.
  induction a as [|x a IH]; [done|].
  change (String x ((a +:+ b) +:+ c) = String x (a +:+ (b +:+ c))).
  by rewrite IH.
Qed.

Lemma string_app_nil_r (a : string) : (a +:+ "")%string = a.
Proof.
  induction a as [|x a IH]; [done|].
  change (String x (a +:+ "") = String x a). by rewrite IH.
Qed.

Lemma string_app_cons (x : ascii) (a b : string) :
  (String x a +:+ b)%string = String x (a +:+ b).
Proof. reflexivity. Qed.

Lemma basename_from_plain acc b :
  has_sep b = false → Os.basename_from acc b = (acc +:+ b)%string.
Proof.
  revert acc. induction b as [|c b IH]; intros acc Hb.
  - cbn [Os.basename_from]. by rewrite string_app_nil_r.
  - cbn [has_sep] in Hb. apply orb_false_iff in Hb as [Hc Hb].
    cbn [Os.basename_from]. rewrite Hc, IH by done.
    by rewrite string_app_assoc.
Qed.

Lemma basename_from_sep acc a b :
  Os.basename_from acc (a +:+ String Os.sep b) = Os.basename_from "" b.
Proof.
  revert acc. induction a as [|c a IH]; intros acc.
  - change ("" +:+ String Os.sep b)%string with (String Os.sep b).
    cbn [Os.basename_from]. by rewrite Ascii.eqb_refl.
  - rewrite string_app_cons. cbn [Os.basename_from].
    destruct (Ascii.eqb c Os.sep); apply IH.
Qed.

Lemma basename_from_ends_with_sep acc a b :
  Os.ends_with_sep a = true →
  Os.basename_from acc (a +:+ b) = Os.basename_from "" b.
Proof.
  revert acc. induction a as [|c a IH]; intros acc Ha; [done|].
  destruct a as [|c' a'].
  - cbn in Ha. change (String c "" +:+ b)%string with (String c b).
    cbn [Os.basename_from]. by rewrite Ha.
  - change (Os.ends_with_sep (String c' a') = true) in Ha.
    change (Os.basename_from acc (String c (String c' a' +:+ b))
            = Os.basename_from "" b).
    cbn [Os.basename_from]. destruct (Ascii.eqb c Os.sep); by apply IH.
Qed.

Lemma basename_join root file :
  has_sep file = false →
  Os.path_basename (Os.path_join root file) = file.
Proof.
  intros Hfile. unfold Os.path_basename, Os.path_join.
  assert (Hstart : Os.starts_with_sep file = false).
  { destruct file as [|c file]; [done|]. cbn [has_sep] in Hfile.
    by apply orb_false_iff in Hfile as [Hc _]. }
  rewrite Hstart.
  destruct (String.eqb root "") eqn:Hroot; cbn [orb].
  - apply String.eqb_eq in Hroot as ->.
    change ("" +:+ file)%string with file.
    by rewrite basename_from_plain.
  - destruct (Os.ends_with_sep root) eqn:Hends.
    + rewrite basename_from_ends_with_sep by done. by rewrite basename_from_plain.
    + rewrite basename_from_sep. by rewrite basename_from_plain.
Qed.

(** X11. The filename that a pass stores is the name of the directory
    entry: when the names that [os.walk] lists hold no separator, every
    row that a pass writes has the path [os.path.join(root, file)] of an
    entry of the walk and the filename [file]. *)
Theorem filename_is_entry_name s eng t directory t' r :
  (∀ root dirs files file,
     (root, dirs, files) ∈ Os.walk s directory → file ∈ files →
     has_sep file = false) →
  check_for_new_files s eng (Some t) directory = (Returns tt, Some t') →
  r ∈ rows t' →
  r ∈ rows t
  ∨ ∃ root dirs files file,
      (root, dirs, files) ∈ Os.walk s directory ∧ file ∈ files
      ∧ path r = Os.path_join root file
      ∧ filename r = file.
Proof.
  intros Hnames Hpass Hr.
  destruct (pass_returns _ _ _ _ _ Hpass) as (found & Hall & _ & Ht').
  injection Ht' as ->.
  apply apply_batch_rows in Hr as [Hr|(e & i & n & He & ->)]; [by left|].
  right. destruct (batch_elem _ _ _ _ _ Hall He) as (Hw & _).
  destruct Hw as (root & dirs & files & file & Htr & Hfile & Hp).
  exists root, dirs, files, file. cbn [path filename row_of].
  split_and!; [done..|]. rewrite Hp. apply basename_join. by eapply Hnames.
Qed.

Lemma filename_is_entry_name_witness :
  (Row 2 "b.txt" "data/b.txt" 100 5 Examples.sha_hello (Datetime 900 (Some utc)))
  ∈ rows Examples.hello_at_a
  ∨ ∃ root dirs files file,
      (root, dirs, files) ∈ Os.walk Examples.renamed "data" ∧ file ∈ files
      ∧ "data/b.txt"%string = Os.path_join root file
      ∧ "b.txt"%string = file.
Proof.
  apply (filename_is_entry_name Examples.renamed Examples.reliable
           Examples.hello_at_a "data"
           (Table [Row 2 "b.txt" "data/b.txt" 100 5 Examples.sha_hello
                       (Datetime 900 (Some utc))] 2)).
  - intros root dirs files file Htr Hfile.
    cbn in Htr. apply list_elem_of_singleton in Htr. injection Htr as -> -> ->.
    apply list_elem_of_singleton in Hfile as ->. reflexivity.
  - vm_compute. reflexivity.
  - left.
Defined.

(** ** The reads of calculate_checksum *)

Lemma in_blocks_count n cs :
  (0 < n)%nat → in_blocks n cs →
  length cs = ((length (concat cs) + (n - 1)) / n)%nat.
Proof.
  intros Hn. induction 1 as [|chunk Hlen|chunk chunk' cs Hlen _ IH].
  - cbn. symmetry. apply Nat.div_small. lia.
  - cbn [concat length]. rewrite app_nil_r.
    apply (Nat.div_unique _ _ _ (length chunk - 1)); lia.
  - change (concat (chunk :: chunk' :: cs)) with (chunk ++ concat (chunk' :: cs)).
    rewrite length_app, Hlen.
    change (length (chunk :: chunk' :: cs)) with (S (length (chunk' :: cs))).
    rewrite IH.
    replace (n + length (concat (chunk' :: cs)) + (n - 1))%nat
      with (1 * n + (length (concat (chunk' :: cs)) + (n - 1)))%nat by lia.
    rewrite Nat.div_add_l by lia. lia.
Qed.

Lemma in_blocks_bound n cs :
  in_blocks n cs → Forall (fun c => (length c ≤ n)%nat) cs.
Proof.
  induction 1 as [|chunk Hlen|chunk chunk' cs Hlen _ IH].
  - constructor.
  - constructor; [lia | constructor].
  - constructor; [lia | done].
Qed.

Lemma read_loop_extends fuel f h h' :
  read_loop fuel f h = Some h' → ∃ cs, updates h' = updates h ++ cs.
Proof.
  revert f h. induction fuel as [|fuel IH]; intros f h; [done|].
  cbn [read_loop]. destruct (Os.read 4096 f) as [[|b chunk] f'].
  - intros [= <-]. exists []. by rewrite app_nil_r.
  - intros Hloop. apply IH in Hloop as [cs Hcs].
    exists ((b :: chunk) :: cs). rewrite Hcs. unfold update. cbn [updates].
    by rewrite <- app_assoc.
Qed.

(** The fuel is the number of calls of [read]: the loop ends within
    [fuel] calls exactly when it makes fewer than [fuel] updates. *)
Lemma read_loop_calls fuel big f h h' :
  read_loop big f h = Some h' →
  ((length (updates h') - length (updates h) < fuel)%nat →
   read_loop fuel f h = Some h')
  ∧ ((fuel ≤ length (updates h') - length (updates h))%nat →
     read_loop fuel f h = None).
Proof.
  revert big f h. induction fuel as [|fuel IH]; intros big f h Hbig.
  - split; [lia | done].
  - destruct big as [|big]; [done|].
    cbn [read_loop] in *. destruct (Os.read 4096 f) as [[|b chunk] f'].
    + injection Hbig as <-. split; [done | lia].
    + destruct (read_loop_extends _ _ _ _ Hbig) as [cs Hcs].
      destruct (IH big f' (update h (b :: chunk)) Hbig) as [Hlt Hge].
      assert (Hlen : length (updates h') = (length (updates h) + 1 + length cs)%nat).
      { rewrite Hcs. unfold update. cbn [updates].
        rewrite !length_app. cbn [length]. lia. }
      assert (Hup : length (updates (update h (b :: chunk)))
                    = (length (updates h) + 1)%nat).
      { unfold update. cbn [updates]. rewrite length_app. cbn [length]. lia. }
      split; intros Hfuel; [apply Hlt | apply Hge]; lia.
Qed.

(** X12. For a file of [n] bytes [calculate_checksum] calls
    [hasher.update] ⌈n/4096⌉ times, with at most 4096 bytes each time,
    and [f.read] once more: the loop ends at the call of [read] of that
    number and not before. *)
Theorem checksum_reads s p f :
  Os.open s p = Returns f →
  ∃ h,
    length (updates h) = ((length (Os.f_data f) + 4095) / 4096)%nat
    ∧ Forall (fun c => (length c ≤ 4096)%nat) (updates h)
    ∧ (∀ calls, (length (updates h) < calls)%nat →
         read_loop calls f sha256_new = Some h)
    ∧ (∀ calls, (calls ≤ length (updates h))%nat →
         read_loop calls f sha256_new = None)
    ∧ calculate_checksum s p = Returns (hexdigest h).
Proof.
  intros Hopen. pose proof (open_from_pos _ _ _ _ Hopen) as Hpos.
  pose proof (calculate_checksum_total _ _ _ Hopen) as Hsum.
  destruct f as [data pos]. cbn [Os.f_pos Os.f_data] in *. subst pos.
  destruct (read_loop_blocks (S (length data)) data 0 sha256_new)
    as (cs & Hloop & Hcat & Hblk); [lia|].
  change (updates sha256_new ++ cs) with cs in Hloop.
  exists (Hasher cs). cbn [updates]. split_and!.
  - rewrite (in_blocks_count 4096 cs) by (done || lia). by rewrite Hcat.
  - by apply in_blocks_bound.
  - intros calls Hcalls.
    apply (read_loop_calls calls _ _ _ _ Hloop). cbn [updates sha256_new length]. lia.
  - intros calls Hcalls.
    apply (read_loop_calls calls _ _ _ _ Hloop). cbn [updates sha256_new length]. lia.
  - rewrite Hsum. unfold hexdigest. cbn [updates]. by rewrite Hcat.
Qed.

Lemma checksum_reads_witness :
  Os.open Examples.two_files "data/a.txt"
  = Returns (Os.File (Examples.content "hello") 0)
  ∧ ∃ h, length (updates h) = ((5 + 4095) / 4096)%nat
         ∧ calculate_checksum Examples.two_files "data/a.txt"
           = Returns (hexdigest h).
Proof.
  assert (Hopen : Os.open Examples.two_files "data/a.txt"
                  = Returns (Os.File (Examples.content "hello") 0))
    by (vm_compute; reflexivity).
  split; [exact Hopen|].
  destruct (checksum_reads _ _ _ Hopen) as (h & Hlen & _ & _ & _ & Hsum).
  exists h. split; [exact Hlen | exact Hsum].
Defined.

(** ** One batch or two *)

Lemma columns_filter c (l : list row) :
  columns <$> filter (fun r => checksum r ≠ c) l
  = filter (fun v : params => v.1.2 ≠ c) (columns <$> l).
Proof.
  induction l as [|r l IH]; [done|].
  rewrite fmap_cons, !filter_cons. cbn [columns fst snd].
  case_decide; [rewrite fmap_cons|]; by rewrite IH.
Qed.

Lemma insert_columns now now' t u e :
  columns <$> rows t = columns <$> rows u →
  columns <$> rows (insert_or_replace now t (params_of e))
  = columns <$> rows (insert_or_replace now' u (params_of e)).
Proof.
  intros Heq. rewrite !insert_rows, !fmap_app, !columns_filter, Heq. done.
Qed.

Lemma apply_batch_columns eng eng' k k' t u batch :
  columns <$> rows t = columns <$> rows u →
  columns <$> rows (apply_batch eng k t batch)
  = columns <$> rows (apply_batch eng' k' u batch).
Proof.
  revert k k' t u. induction batch as [|e batch IH]; intros k k' t u Heq; [done|].
  cbn [apply_batch]. apply IH. by apply insert_columns.
Qed.

(** X14. A batch can be upserted in two calls: two calls of
    [_update_file_metadata], with a batch and then with another, leave
    the same rows in the same order as one call with the two batches
    joined, apart from the ids and the upload dates; the tracked set is
    the same. *)
Theorem upsert_in_two_calls eng1 eng2 eng a b t t1 t2 t12 :
  _update_file_metadata eng1 a (Some t) = (Returns tt, Some t1) →
  _update_file_metadata eng2 b (Some t1) = (Returns tt, Some t2) →
  _update_file_metadata eng (a ++ b) (Some t) = (Returns tt, Some t12) →
  columns <$> rows t2 = columns <$> rows t12
  ∧ get_tracked_files (Some t2) = get_tracked_files (Some t12).
Proof.
  intros H1 H2 H12.
  apply update_returns in H1. injection H1 as ->.
  apply update_returns in H2. injection H2 as ->.
  apply update_returns in H12. injection H12 as ->.
  assert (Hcols : columns <$> rows (apply_batch eng2 0 (apply_batch eng1 0 t a) b)
                  = columns <$> rows (apply_batch eng 0 t (a ++ b))).
  { rewrite apply_batch_app. apply apply_batch_columns.
    by apply apply_batch_columns. }
  split; [done|]. cbn [get_tracked_files]. f_equal. unfold tracked_of.
  assert (Hpairs : ∀ l : list row,
            (fun r => (path r, checksum r)) <$> l
            = (fun v : params => (v.1.1.1.2, v.1.2)) <$> (columns <$> l)).
  { intros l. rewrite <- list_fmap_compose. done. }
  by rewrite !Hpairs, Hcols.
Qed.

Lemma upsert_in_two_calls_witness :
  columns <$> rows (Table
    [Row 1 "a.txt" "data/a.txt" 50 5 Examples.sha_hello (Datetime 900 (Some utc));
     Row 2 "c.txt" "data/c.txt" 100 3 "cc" (Datetime 10 (Some utc));
     Row 3 "d.txt" "data/d.txt" 200 4 "dd" (Datetime 20 (Some utc))] 3)
  = columns <$> rows (Table
    [Row 1 "a.txt" "data/a.txt" 50 5 Examples.sha_hello (Datetime 900 (Some utc));
     Row 2 "c.txt" "data/c.txt" 300 3 "cc" (Datetime 10 (Some utc));
     Row 3 "d.txt" "data/d.txt" 301 4 "dd" (Datetime 20 (Some utc))] 3).
Proof.
  refine (proj1 (upsert_in_two_calls Examples.reliable (Examples.reliable_from 200)
            (Examples.reliable_from 300)
            [("data/c.txt"%string, 3, "cc"%string, Datetime 10 None)]
            [("data/d.txt"%string, 4, "dd"%string, Datetime 20 None)]
            Examples.hello_at_a
            (Table
               [Row 1 "a.txt" "data/a.txt" 50 5 Examples.sha_hello
                    (Datetime 900 (Some utc));
                Row 2 "c.txt" "data/c.txt" 100 3 "cc" (Datetime 10 (Some utc))] 2)
            _ _ _ _ _)); reflexivity.
Defined.

(** ** The log of a pass *)






(** Two files of the same content: two are detected and counted, and one
    row is written. *)
Example log_of_twins :
  check_for_new_files_logged Examples.twins Examples.reliable
    (Some empty_table) "data"
  = ((Returns tt,
      Some (Table [Row 2 "b.txt" "data/b.txt" 101 5 Examples.sha_hello
                       (Datetime 2000 (Some utc))] 2)),
     ["Checking for new or modified files in data";
      "New or modified file detected: data/a.txt";
      "New or modified file detected: data/b.txt";
      "Metadata updated for 2 new files."])%string.
Proof. vm_compute. reflexivity. Qed.

(** The messages of a walk that raises at its second file. *)
Example log_of_a_failed_walk :
  check_for_new_files_logged Examples.one_unreadable Examples.reliable
    (Some empty_table) "data"
  = ((Raises PermissionError, Some empty_table),
     ["Checking for new or modified files in data";
      "New or modified file detected: data/a.txt"])%string.
Proof. vm_compute. reflexivity. Qed.

(** ** The snapshot *)

(** X16. The snapshot loses no row: on a table that obeys the UNIQUE
    constraint, the set that [get_tracked_files] builds from the rows
    has one pair for each row, and a pair is in it exactly when a row
    has that path and that checksum. *)
Theorem snapshot_has_every_row t :
  unique_checksums t →
  ∃ tracked,
    get_tracked_files (Some t) = Returns tracked
    ∧ size tracked = length (rows t)
    ∧ ∀ p c, (p, c) ∈ tracked ↔ ∃ r, r ∈ rows t ∧ path r = p ∧ checksum r = c.
Proof.
  intros Hu. exists (tracked_of t). split_and!; [done| |apply tracked_of_elem].
  unfold tracked_of. rewrite size_list_to_set, length_fmap; [done|].
  apply (NoDup_fmap_1 snd). rewrite <- list_fmap_compose. exact Hu.
Qed.

Lemma snapshot_has_every_row_witness :
  ∃ tracked,
    get_tracked_files (Some Examples.after_first_run) = Returns tracked
    ∧ size tracked = length (rows Examples.after_first_run)
    ∧ ∀ p c, (p, c) ∈ tracked
             ↔ ∃ r, r ∈ rows Examples.after_first_run
                    ∧ path r = p ∧ checksum r = c.
Proof.
  apply snapshot_has_every_row.
  unfold unique_checksums. vm_compute.
  apply NoDup_cons. split; [|apply NoDup_singleton].
  intros Hin. apply list_elem_of_singleton in Hin. discriminate.
Defined.
